(** * cinnabar: a shallow embedding of the revlog reader and its patch engine

    Sources: [src/src/patch.rs] (module [Patch] below), [src/src/revlog.rs]
    and [src/src/util.rs] (module [Revlog] below), and the older reader
    kept in [src/src/main.rs] (module [MainRevlog] below).

    Conventions.
    - Byte buffers ([Vec<u8>], [Bytes], the mmaps) are [list byte].
    - [usize] positions of the patch engine are [nat]; [isize], [i32] and
      [u64] values of the revlog reader are [Z], with their wrap-around
      written out where the source converts between widths.
    - A Rust panic ([unwrap], [assert!], an out-of-bounds slice) is an
      explicit outcome: [None] for the patch engine, [Panic] for the revlog
      reader. Errors returned through [Result] are [Err]. *)

From Stdlib Require Import String Ascii Init.Byte Strings.Byte.
From Stdlib Require Import ZArith NArith Lia Bool Sorted List.
Import ListNotations.

(** Big-endian decoding and encoding of byte strings. *)
Definition be_combine (bs : list byte) : Z :=
  fold_left (fun acc b => (acc * 256 + Z.of_N (Byte.to_N b))%Z) bs 0%Z.

Definition byte_of_Z (z : Z) : byte :=
  match Byte.of_N (Z.to_N (z mod 256)%Z) with Some b => b | None => Byte.x00 end.

(** [n] bytes, big-endian, of [z] modulo [256^n] (used to build inputs). *)
Fixpoint be_split (n : nat) (z : Z) : list byte :=
  match n with
  | O => []
  | S n' => be_split n' (z / 256)%Z ++ [byte_of_Z z]
  end.

Module Patch.

(** A patch stream is read through a [Cursor<Vec<u8>>]; the cursor is
    modelled as the bytes that remain after its position, so
    [cur.position() != patch_len] is [cur <> []]. *)

(** [read_u32::<BigEndian>().unwrap()]: [None] is the panic of [unwrap]
    on a short read. *)
Definition read_u32 (cur : list byte) : option (nat * list byte) :=
  match cur with
  | b0 :: b1 :: b2 :: b3 :: rest =>
      Some (Z.to_nat (be_combine [b0; b1; b2; b3]), rest)
  | _ => None
  end.

Definition decode_header (cur : list byte)
  : option ((nat * nat * nat) * list byte) :=
  match read_u32 cur with
  | None => None
  | Some (a, cur1) =>
    match read_u32 cur1 with
    | None => None
    | Some (b, cur2) =>
      match read_u32 cur2 with
      | None => None
      | Some (c, cur3) => Some ((a, b, c), cur3)
      end
    end
  end.

(** [read_slice]: [read_exact] of [len] bytes, unwrapped. *)
Definition read_slice (cur : list byte) (len : nat)
  : option (list byte * list byte) :=
  if len <=? length cur then Some (firstn len cur, skipn len cur) else None.

(** [Bytes::slice(begin, end)] and [Bytes::slice_from(begin)]: a range
    outside [0 <= begin <= end <= len] panics. *)
Definition bytes_slice (buf : list byte) (b e : nat) : option (list byte) :=
  if (b <=? e) && (e <=? length buf)
  then Some (firstn (e - b) (skipn b buf)) else None.

Definition bytes_slice_from (buf : list byte) (b : nat) : option (list byte) :=
  bytes_slice buf b (length buf).

(** The [while] loop of [apply] for one patch stream, from [last] and
    [next]; it returns the final [last] and [next]. [buf] is the buffer as
    it stood when the stream began. Each pass consumes at least 12 bytes
    of the stream, so [length patch] passes always suffice. *)
Fixpoint patch_loop (fuel : nat) (buf cur : list byte) (last : nat)
    (next : list byte) : option (nat * list byte) :=
  match cur with
  | [] => Some (last, next)
  | _ :: _ =>
    match fuel with
    | O => None
    | S fuel' =>
      match decode_header cur with
      | None => None
      | Some ((a, b, c), cur1) =>
        match read_slice cur1 c with
        | None => None
        | Some (piece, cur2) =>
          match bytes_slice buf last a with
          | None => None
          | Some keep => patch_loop fuel' buf cur2 b (next ++ keep ++ piece)
          end
        end
      end
    end
  end.

(** One iteration of [for patch in patches]: the loop, then the tail. *)
Definition apply_patch (buf patch : list byte) : option (list byte) :=
  match patch_loop (length patch) buf patch 0 [] with
  | None => None
  | Some (last, next) =>
    if negb (last =? length buf) then
      match bytes_slice_from buf last with
      | None => None
      | Some tl => Some (next ++ tl)
      end
    else Some next
  end.

(** [pub fn apply(base, patches) -> Vec<u8>]. *)
Fixpoint apply (base : list byte) (patches : list (list byte))
  : option (list byte) :=
  match patches with
  | [] => Some base
  | p :: ps =>
    match apply_patch base p with
    | None => None
    | Some buf => apply buf ps
    end
  end.

(** ** Hunk view of a stream *)

(** The same loop, on already decoded hunks. *)
Fixpoint run_hunks (buf : list byte) (hs : list (nat * nat * list byte))
    (last : nat) (next : list byte) : option (nat * list byte) :=
  match hs with
  | [] => Some (last, next)
  | (a, b, piece) :: t =>
    match bytes_slice buf last a with
    | None => None
    | Some keep => run_hunks buf t b (next ++ keep ++ piece)
    end
  end.

(** A decoded hunk: [(a, b, data)], with [c = length data]. *)
Definition hunk : Type := (nat * nat * list byte)%type.

(** The hunks of a stream, decoded with the same reads as [patch_loop];
    [None] exactly when the stream is truncated. *)
Fixpoint decode_hunks (fuel : nat) (cur : list byte) : option (list hunk) :=
  match cur with
  | [] => Some []
  | _ :: _ =>
    match fuel with
    | O => None
    | S fuel' =>
      match decode_header cur with
      | None => None
      | Some ((a, b, c), cur1) =>
        match read_slice cur1 c with
        | None => None
        | Some (piece, cur2) =>
          match decode_hunks fuel' cur2 with
          | None => None
          | Some hs => Some ((a, b, piece) :: hs)
          end
        end
      end
    end
  end.

Definition hunks_of (patch : list byte) : option (list hunk) :=
  decode_hunks (length patch) patch.

(** A truncated stream: some read of the loop runs short, either the
    12-byte header of a hunk or its [c] data bytes. *)
Inductive truncated : list byte -> Prop :=
| trunc_header cur :
    cur <> [] -> decode_header cur = None -> truncated cur
| trunc_data cur a b c cur1 :
    decode_header cur = Some ((a, b, c), cur1) -> length cur1 < c ->
    truncated cur
| trunc_later cur a b c cur1 :
    decode_header cur = Some ((a, b, c), cur1) -> c <= length cur1 ->
    truncated (skipn c cur1) -> truncated cur.

(** Well-formed hunks for a source of length [len], from cursor [last]:
    [last <= a <= b <= len] and the next hunk starts at or after [b]. *)
Fixpoint hunks_wf (len last : nat) (hs : list hunk) : bool :=
  match hs with
  | [] => last <=? len
  | (a, b, _) :: t => (last <=? a) && (a <=? b) && (b <=? len) && hunks_wf len b t
  end.

Definition sum_del (hs : list hunk) : Z :=
  fold_right (fun '(a, b, _) acc => (Z.of_nat b - Z.of_nat a + acc)%Z) 0%Z hs.

Definition sum_ins (hs : list hunk) : Z :=
  fold_right (fun '(_, _, p) acc => (Z.of_nat (length p) + acc)%Z) 0%Z hs.

(** The per-stream algorithm of the specification (section 4.6), on the
    stream-start buffer [src]: copy [src[cursor..a]], then the data, then
    move the cursor to [b]; finally copy [src[cursor..]]. *)
Fixpoint spec_stream_from (src : list byte) (hs : list hunk) (cursor : nat)
  : list byte :=
  match hs with
  | [] => skipn cursor src
  | (a, b, d) :: t =>
      firstn (a - cursor) (skipn cursor src) ++ d ++ spec_stream_from src t b
  end.

Definition spec_stream (src : list byte) (hs : list hunk) : list byte :=
  spec_stream_from src hs 0.

(** Encoding of a hunk, used to build concrete streams. *)
Definition enc_hunk (a b : Z) (d : list byte) : list byte :=
  be_split 4 a ++ be_split 4 b ++ be_split 4 (Z.of_nat (length d)) ++ d.

End Patch.

Module Revlog.

Open Scope Z_scope.

(** Outcome of a fallible operation: [Ok], an [Err] returned through
    [Result] (the [expect!] macro, [try!]), a [Panic] ([assert!],
    [unwrap]), or [Diverge] when a loop has not finished within the
    iterations it was given. *)
Inductive result (A : Type) : Type :=
| Ok (a : A)
| Err (msg : string)
| Panic
| Diverge.
Arguments Ok {A} a.
Arguments Err {A} msg.
Arguments Panic {A}.
Arguments Diverge {A}.

Definition bind {A B : Type} (m : result A) (k : A -> result B) : result B :=
  match m with
  | Ok a => k a
  | Err s => Err s
  | Panic => Panic
  | Diverge => Diverge
  end.

Notation "x <- m ;; k" := (bind m (fun x => k))
  (at level 61, m at next level, right associativity).

Definition REVLOGNG : Z := 1.
Definition REVLOGNGINLINEDATA : Z := Z.shiftl 1 16.
Definition REVLOGGENERALDELTA : Z := Z.shiftl 1 17.

(** Integer conversions of the source. *)
Definition as_i32 (z : Z) : Z := ((z + 2 ^ 31) mod 2 ^ 32) - 2 ^ 31.
Definition usize_of_i32 (c : Z) : Z := if c <? 0 then c + 2 ^ 64 else c.
Definition isize_of_usize (u : Z) : Z := if u <? 2 ^ 63 then u else u - 2 ^ 64.

(** [RevlogChunk]: the 64 bytes of an index record, [#[repr(C)]], read in
    place; the accessors do the [from_be] conversions. *)
Definition RevlogChunk : Type := list byte.

Definition field (c : RevlogChunk) (off len : nat) : list byte :=
  firstn len (skipn off c).

Definition i32_from_be (bs : list byte) : Z :=
  let u := be_combine bs in if u <? 2 ^ 31 then u else u - 2 ^ 32.

Definition offset_flags (c : RevlogChunk) : Z := be_combine (field c 0 8).
(** [RevlogChunk::offset]: [u64::from_be(self.offset_flags) >> 16]. *)
Definition chunk_offset (c : RevlogChunk) : Z := Z.shiftr (offset_flags c) 16.
Definition comp_len (c : RevlogChunk) : Z := i32_from_be (field c 8 4).
Definition uncomp_len (c : RevlogChunk) : Z := i32_from_be (field c 12 4).
Definition chunk_base_rev (c : RevlogChunk) : Z := i32_from_be (field c 16 4).
Definition link_rev (c : RevlogChunk) : Z := i32_from_be (field c 20 4).
Definition parent_1 (c : RevlogChunk) : Z := i32_from_be (field c 24 4).
Definition parent_2 (c : RevlogChunk) : Z := i32_from_be (field c 28 4).
Definition c_node_id (c : RevlogChunk) : list byte := field c 32 20.

(** [MappedData::extract_value] for a value of [size] bytes. *)
Definition extract_value (m : list byte) (size index : Z) : result (list byte) :=
  if negb (0 <=? index) then Panic
  else if negb (index + size <=? Z.of_nat (length m)) then Panic
  else Ok (firstn (Z.to_nat size) (skipn (Z.to_nat index) m)).

(** [MappedData::extract_slice(index, len)], [len] a [usize]. The bounds
    check compares [index + len as isize]; when [len] exceeds [isize::MAX]
    (a negative [comp_len] cast to [usize]) and passes that check, the
    source builds a slice longer than memory, which is undefined
    behaviour; it is modelled as a [Panic]. *)
Definition extract_slice (m : list byte) (index len : Z) : result (list byte) :=
  if negb (0 <=? index) then Panic
  else if negb (index + isize_of_usize len <=? Z.of_nat (length m)) then Panic
  else if 2 ^ 63 <=? len then Panic
  else Ok (firstn (Z.to_nat len) (skipn (Z.to_nat index) m)).

Record Revlog : Type := mkRevlog {
  rl_index : list byte;          (* index: MappedData, the .i file *)
  rl_data : option (list byte);  (* data: Option<MappedData>, the .d file *)
  generaldelta : bool;
  offset_table : list Z;
  incomplete : bool              (* _incomplete *)
}.

(** [RevlogEntry]; its [revlog] reference is passed explicitly. *)
Record RevlogEntry : Type := mkEntry {
  revno : Z;
  chunk : RevlogChunk;
  byte_offset : Z;
  data : list byte
}.

Definition inline (rl : Revlog) : bool :=
  match rl_data rl with None => true | Some _ => false end.

(** [<[isize]>::binary_search]: the standard library's loop, which halves
    the slice [s] and keeps the index [base] of its first element. *)
Fixpoint binary_search_loop (fuel base : nat) (s : list Z) (x : Z) : nat + nat :=
  match fuel with
  | O => inr base
  | S f =>
    let mid := Nat.div2 (length s) in
    match skipn mid s with
    | [] => inr base
    | t :: rest =>
      match Z.compare t x with
      | Lt => binary_search_loop f (base + mid + 1) rest x
      | Gt => binary_search_loop f base (firstn mid s) x
      | Eq => inl (base + mid)%nat
      end
    end
  end.

Definition binary_search (s : list Z) (x : Z) : nat + nat :=
  binary_search_loop (S (length s)) 0 s x.

Definition revno_from_offset (rl : Revlog) (offset : Z) : result Z :=
  if incomplete rl then Ok (-1)
  else if inline rl then
    match binary_search (offset_table rl) offset with
    | inl i => Ok (as_i32 (Z.of_nat i))
    | inr _ => Err "Error finding revno for offset"
    end
  else Ok (as_i32 (Z.quot offset 64)).

(** The framing byte of a nonempty payload: ['\0'], ['u'] or ['x']. *)
Definition frame_ok (b : byte) : bool :=
  Byte.eqb b Byte.x00 || Byte.eqb b Byte.x75 || Byte.eqb b Byte.x78.

Definition index_entry_at_byte (rl : Revlog) (offset : Z) (revno_opt : option Z)
  : result RevlogEntry :=
  if negb (inline rl) && negb (Z.rem offset 64 =? 0)
  then Err "expect failed: offset % 64 == 0" else
  chunk <- extract_value (rl_index rl) 64 offset ;;
  d <- match rl_data rl with
       | None => extract_slice (rl_index rl) (offset + 64) (usize_of_i32 (comp_len chunk))
       | Some dfile =>
           let off := if offset =? 0 then 0 else chunk_offset chunk in
           extract_slice dfile off (usize_of_i32 (comp_len chunk))
       end ;;
  r <- match revno_opt with
       | Some x => Ok x
       | None => revno_from_offset rl offset
       end ;;
  if negb (forallb (fun b => Byte.eqb b Byte.x00) (skipn 52 chunk))
  then Err "expect failed: c_node_id[20..] == [0; 12]" else
  match d with
  | [] => Ok (mkEntry r chunk offset d)
  | d0 :: _ =>
      if frame_ok d0 then Ok (mkEntry r chunk offset d)
      else Err "Weird data type"
  end.

(** [RevlogEntry::inline_advance] (precondition: inline). *)
Definition inline_advance (rl : Revlog) (e : RevlogEntry) : result (option RevlogEntry) :=
  let next := byte_offset e + comp_len (chunk e) + 64 in
  if next =? Z.of_nat (length (rl_index rl)) then Ok None
  else e' <- index_entry_at_byte rl next None ;; Ok (Some e').

(** [RevlogEntry::offset]. *)
Definition entry_offset (e : RevlogEntry) : Z :=
  if byte_offset e =? 0 then 0 else chunk_offset (chunk e).

(** [RevlogEntry::base_rev]. *)
Definition entry_base_rev (rl : Revlog) (e : RevlogEntry) : Z :=
  let base := chunk_base_rev (chunk e) in
  if (base =? revno e) && generaldelta rl then -1 else base.

(** [RevlogIterator::next] from the iterator's [cur]. [Ok x] is both the
    new [cur] and the item ([None], or [Some(Ok e)]); [Err m] is the item
    [Some(Err m)]. *)
Definition iter_next (rl : Revlog) (cur : option RevlogEntry)
  : result (option RevlogEntry) :=
  match cur with
  | None => e <- index_entry_at_byte rl 0 None ;; Ok (Some e)
  | Some prev =>
    if inline rl then inline_advance rl prev
    else
      let next_offset := byte_offset prev + 64 in
      if next_offset =? Z.of_nat (length (rl_index rl)) then Ok None
      else e <- index_entry_at_byte rl next_offset None ;; Ok (Some e)
  end.

(** The [for] loop of [Revlog::init] over [self.iter()], pushing each
    entry's [byte_offset] onto [acc]. *)
Fixpoint scan (fuel : nat) (rl : Revlog) (cur : option RevlogEntry) (acc : list Z)
  : result (list Z) :=
  match fuel with
  | O => Diverge
  | S f =>
    match iter_next rl cur with
    | Ok None => Ok acc
    | Ok (Some e) => scan f rl (Some e) (acc ++ [byte_offset e])
    | Err m => Err m
    | Panic => Panic
    | Diverge => Diverge
    end
  end.

(** Every scanned record takes at least 64 bytes of the index, so the
    scan makes at most [length index + 1] calls to [next]. *)
Definition init (rl : Revlog) : result Revlog :=
  if negb (incomplete rl) then Panic
  else if negb (inline rl) then
    Ok (mkRevlog (rl_index rl) (rl_data rl) (generaldelta rl) (offset_table rl) false)
  else
    tbl <- scan (S (length (rl_index rl))) rl None [] ;;
    Ok (mkRevlog (rl_index rl) (rl_data rl) (generaldelta rl) tbl false).

(** [MappedData::open]: the file system is a map from paths to contents.
    The file is mapped with [MemoryMap::new(attr.len())], which refuses a
    zero-length mapping, so an empty file is an error. *)
Definition map_file (fs : string -> option (list byte)) (path : string)
  : result (list byte) :=
  match fs path with
  | Some [] => Err "Zero-length mapping not allowed"
  | Some bs => Ok bs
  | None => Err "io error"
  end.

Definition ends_with (s suffix : string) : bool :=
  (String.length suffix <=? String.length s)%nat &&
  String.eqb (substring (String.length s - String.length suffix)
                        (String.length suffix) s) suffix.

Definition open (path : string) (fs : string -> option (list byte)) : result Revlog :=
  if negb (ends_with path ".i") then Err "expect failed: path.ends_with(.i)" else
  idx <- map_file fs path ;;
  first_chunk <- extract_value idx 64 0 ;;
  let flags := Z.shiftr (offset_flags first_chunk) 32 in
  if Z.land flags REVLOGNG =? 0 then Err "expect failed: flags & REVLOGNG != 0" else
  let inl := negb (Z.land flags REVLOGNGINLINEDATA =? 0) in
  let gd := negb (Z.land flags REVLOGGENERALDELTA =? 0) in
  dt <- (if inl then Ok None
         else d <- map_file fs (substring 0 (String.length path - 2) path ++ ".d") ;;
              Ok (Some d)) ;;
  init (mkRevlog idx dt gd [] true).

Definition len (rl : Revlog) : Z :=
  if inline rl then Z.of_nat (length (offset_table rl))
  else Z.quot (Z.of_nat (length (rl_index rl))) 64.

(** [Revlog::index]. *)
Definition index (rl : Revlog) (i : Z) : result RevlogEntry :=
  if inline rl then
    if negb (0 <=? i) then Err "index is out of bounds"
    else if negb (i <? as_i32 (Z.of_nat (length (offset_table rl))))
    then Err "index is bigger than the table"
    else index_entry_at_byte rl (nth (Z.to_nat i) (offset_table rl) 0) (Some i)
  else index_entry_at_byte rl (64 * i) (Some i).

(** [DeltaChain::next] from the iterator's [cur]; [Ok None] ends the
    iteration, [Ok (Some (payload, cur'))] yields [payload]. The [unwrap]
    of [index(next_rev)] panics on an error. *)
Definition delta_chain_next (rl : Revlog) (cur : option RevlogEntry)
  : result (option (list byte * option RevlogEntry)) :=
  match cur with
  | None => Ok None
  | Some c =>
    let next_rev := entry_base_rev rl c in
    if (next_rev =? -1) || (next_rev =? revno c) then Ok (Some (data c, None))
    else match index rl next_rev with
         | Ok e => Ok (Some (data c, Some e))
         | _ => Panic
         end
  end.

(** Collecting [delta_chain(e)] with at most [fuel] calls to [next]. *)
Fixpoint collect_chain (fuel : nat) (rl : Revlog) (cur : option RevlogEntry)
  : result (list (list byte)) :=
  match fuel with
  | O => Diverge
  | S f =>
    match delta_chain_next rl cur with
    | Ok None => Ok []
    | Ok (Some (d, cur')) => ds <- collect_chain f rl cur' ;; Ok (d :: ds)
    | Err m => Err m
    | Panic => Panic
    | Diverge => Diverge
    end
  end.

(** [NULL_ID]: twenty zero bytes. *)
Definition NULL_ID : list byte := repeat Byte.x00 20.

(** [RevlogEntry::parent_1_id] and [parent_2_id], on the parent field
    [p]: -1 is the null id, any other value is looked up with [index]. *)
Definition parent_id (rl : Revlog) (p : Z) : result (list byte) :=
  if p =? -1 then Ok NULL_ID
  else entry <- index rl p ;; Ok (c_node_id (chunk entry)).

Definition parent_1_id (rl : Revlog) (e : RevlogEntry) : result (list byte) :=
  parent_id rl (parent_1 (chunk e)).

Definition parent_2_id (rl : Revlog) (e : RevlogEntry) : result (list byte) :=
  parent_id rl (parent_2 (chunk e)).

(** Collecting [self.iter()] into a [Result<Vec<RevlogEntry>>], with at
    most [fuel] calls to [next]: the entries up to the end, or the first
    error. *)
Fixpoint iter_collect (fuel : nat) (rl : Revlog) (cur : option RevlogEntry)
  : result (list RevlogEntry) :=
  match fuel with
  | O => Diverge
  | S f =>
    match iter_next rl cur with
    | Ok None => Ok []
    | Ok (Some e) => es <- iter_collect f rl (Some e) ;; Ok (e :: es)
    | Err m => Err m
    | Panic => Panic
    | Diverge => Diverge
    end
  end.

(** ** Shapes of runs *)

(** Where the next record of an inline revlog starts. *)
Definition next_of (e : RevlogEntry) : Z := byte_offset e + comp_len (chunk e) + 64.

(** [scanned rl off tbl]: the inline scan, started at record offset [off],
    visits the offsets [tbl] and stops exactly at the end of the index. *)
Inductive scanned (rl : Revlog) : Z -> list Z -> Prop :=
| scanned_end off e :
    index_entry_at_byte rl off None = Ok e ->
    next_of e = Z.of_nat (length (rl_index rl)) -> scanned rl off [off]
| scanned_more off e tl :
    index_entry_at_byte rl off None = Ok e ->
    next_of e <> Z.of_nat (length (rl_index rl)) ->
    scanned rl (next_of e) tl -> scanned rl off (off :: tl).

(** The delta chain as section 4.5 of the specification describes it: the
    payload of [e], then, unless [effective_base_rev e] is -1 or [e]'s own
    revno, the chain of the entry at that revno. *)
Inductive chain_of (rl : Revlog) : RevlogEntry -> list (list byte) -> Prop :=
| chain_last e :
    entry_base_rev rl e = -1 \/ entry_base_rev rl e = revno e ->
    chain_of rl e [data e]
| chain_step e e' ds :
    entry_base_rev rl e <> -1 -> entry_base_rev rl e <> revno e ->
    index rl (entry_base_rev rl e) = Ok e' -> chain_of rl e' ds ->
    chain_of rl e (data e :: ds).

(** Revision [i] has a backward delta base: its effective base is -1,
    itself, or an earlier revision that [index] finds. *)
Definition rev_chain_ok (rl : Revlog) (i : Z) : bool :=
  match index rl i with
  | Ok e =>
      let b := entry_base_rev rl e in
      (b =? -1) || (b =? i) ||
      ((0 <=? b) && (b <? i) && match index rl b with Ok _ => true | _ => false end)
  | _ => false
  end.

(** Revisions [0 .. n-1] all have backward delta bases. *)
Definition chain_wf (rl : Revlog) (n : nat) : bool :=
  forallb (fun k => rev_chain_ok rl (Z.of_nat k)) (seq 0 n).

(** ** Concrete revlogs *)

(** A 64-byte index record, encoded as Mercurial writes it. *)
Definition mk_record (oflags clen ulen base link p1 p2 : Z) (node : list byte)
  : list byte :=
  be_split 8 oflags ++ be_split 4 clen ++ be_split 4 ulen ++ be_split 4 base ++
  be_split 4 link ++ be_split 4 p1 ++ be_split 4 p2 ++ node ++ repeat Byte.x00 12.

Definition flag_word (flags : Z) : Z := flags * 2 ^ 32.

(** An inline revlog of two revisions: rev 0 is the fulltext "AB" stored as
    ['u' A B], rev 1 a fulltext "C" stored as ['u' C]. *)
Definition inline_idx : list byte :=
  mk_record (flag_word (REVLOGNG + REVLOGNGINLINEDATA)) 3 2 0 0 (-1) (-1)
    (repeat Byte.x11 20) ++ [Byte.x75; Byte.x41; Byte.x42] ++
  mk_record (3 * 2 ^ 16) 2 1 1 1 0 (-1) (repeat Byte.x22 20) ++
    [Byte.x75; Byte.x43].

(** The same index file with its last byte cut off. *)
Definition inline_idx_short : list byte := removelast inline_idx.

Definition fs_one (path : string) (contents : list byte) (p : string)
  : option (list byte) :=
  if String.eqb p path then Some contents else None.

Definition fs_two (p1 : string) (c1 : list byte) (p2 : string) (c2 : list byte)
    (p : string) : option (list byte) :=
  if String.eqb p p1 then Some c1 else if String.eqb p p2 then Some c2 else None.

(** A separate revlog (index and data files) of two revisions; the record
    of rev 1 stores data offset 3 in its [offset_flags]; [base0] and
    [base1] are the records' [base_rev] fields. *)
Definition sep_idx (flags base0 base1 : Z) : list byte :=
  mk_record (flag_word flags) 3 2 base0 0 (-1) (-1) (repeat Byte.x11 20) ++
  mk_record (3 * 2 ^ 16) 2 1 base1 1 0 (-1) (repeat Byte.x22 20).

Definition sep_data : list byte := [Byte.x75; Byte.x41; Byte.x42; Byte.x75; Byte.x43].

Definition fs_sep (flags base0 base1 : Z) : string -> option (list byte) :=
  fs_two "data/f.i" (sep_idx flags base0 base1) "data/f.d" sep_data.

(** The revlog that [open] builds from [fs_sep flags base0 base1]. *)
Definition sep_rl (flags base0 base1 : Z) : Revlog :=
  mkRevlog (sep_idx flags base0 base1) (Some sep_data)
    (negb (Z.land flags REVLOGGENERALDELTA =? 0)) [] false.

End Revlog.

(** * The standalone reader of [src/src/main.rs]

    The binary carries an earlier copy of the reader in its own [revlog]
    module: a [MappedData::extract_value] whose bound is strict, records
    without payload slices or revision numbers, and a linear [entry]
    lookup. The record layout and its accessors are those of [Revlog].
    Arithmetic on [i32] and [isize] is checked, as in a debug build: an
    overflow panics. *)
Module MainRevlog.
Import Revlog.
Open Scope Z_scope.

(** [MappedData::extract_value]: [index as usize + size < self.len]. *)
Definition extract_value (m : list byte) (size index : Z) : result (list byte) :=
  if negb (0 <=? index) then Panic
  else if negb (index + size <? Z.of_nat (length m)) then Panic
  else Ok (firstn (Z.to_nat size) (skipn (Z.to_nat index) m)).

(** Checked [i32] and [isize] arithmetic. *)
Definition checked (lo hi z : Z) : result Z :=
  if (lo <=? z) && (z <? hi) then Ok z else Panic.
Definition i32_add (x y : Z) : result Z := checked (- 2 ^ 31) (2 ^ 31) (x + y).
Definition isize_add (x y : Z) : result Z := checked (- 2 ^ 63) (2 ^ 63) (x + y).
Definition isize_mul (x y : Z) : result Z := checked (- 2 ^ 63) (2 ^ 63) (x * y).

Record Revlog : Type := mk_revlog {
  index : list byte;
  data : option (list byte);
  inline : bool;
  generaldelta : bool;
  offset_table : list Z
}.

(** [RevlogEntry]; [byte_offset] is an [i32]. *)
Record RevlogEntry : Type := mk_entry {
  chunk : RevlogChunk;
  byte_offset : Z
}.

Definition index_entry_at_byte (rl : Revlog) (i : Z) : result RevlogEntry :=
  if negb (inline rl) && negb (Z.rem i 64 =? 0)
  then Err "expect failed: i % 64 == 0" else
  c <- extract_value (index rl) 64 i ;;
  if negb (forallb (fun b => Byte.eqb b Byte.x00) (skipn 52 c))
  then Err "expect failed: c_node_id[20..] == [0; 12]"
  else Ok (mk_entry c (as_i32 i)).

(** [RevlogEntry::advance]: [next] is an [i32] cast to [u64] for the
    comparison with the file length, and back to [isize] for the lookup. *)
Definition advance (rl : Revlog) (e : RevlogEntry) : result (option RevlogEntry) :=
  s <- i32_add (byte_offset e) (comp_len (chunk e)) ;;
  next <- i32_add s 64 ;;
  let next_u64 := if next <? 0 then next + 2 ^ 64 else next in
  if next_u64 =? Z.of_nat (length (index rl)) then Ok None
  else e' <- index_entry_at_byte rl (isize_of_usize next_u64) ;; Ok (Some e').

(** The [loop] of [Revlog::entry] in inline mode, from revision [cur]
    at [e], with at most [fuel] iterations. *)
Fixpoint entry_loop (fuel : nat) (rl : Revlog) (i cur : Z) (e : RevlogEntry)
  : result RevlogEntry :=
  match fuel with
  | O => Diverge
  | S f =>
    if cur =? i then Ok e else
    r <- advance rl e ;;
    match r with
    | Some next_entry => cur' <- isize_add cur 1 ;; entry_loop f rl i cur' next_entry
    | None => Err "No revision"
    end
  end.

(** [Revlog::entry]. *)
Definition entry (fuel : nat) (rl : Revlog) (i : Z) : result RevlogEntry :=
  if inline rl then
    e <- index_entry_at_byte rl 0 ;; entry_loop fuel rl i 0 e
  else
    off <- isize_mul i 64 ;; index_entry_at_byte rl off.

(** [Revlog::init]: [assert!(self.inline != self.data.is_some())]. *)
Definition init (rl : Revlog) : result Revlog :=
  let has_data := match data rl with Some _ => true | None => false end in
  if Bool.eqb (inline rl) has_data then Panic else Ok rl.

(** [Revlog::open]; [mmap_helper] is [map_file]. *)
Definition open (path : string) (fs : string -> option (list byte)) : result Revlog :=
  if negb (ends_with path ".i") then Err "expect failed: path.ends_with(.i)" else
  idx <- map_file fs path ;;
  first_chunk <- extract_value idx 64 0 ;;
  let flags := Z.shiftr (offset_flags first_chunk) 32 in
  if Z.land flags REVLOGNG =? 0 then Err "expect failed: flags & REVLOGNG != 0" else
  let inl := negb (Z.land flags REVLOGNGINLINEDATA =? 0) in
  let gd := negb (Z.land flags REVLOGGENERALDELTA =? 0) in
  dt <- (if inl then Ok None
         else d <- map_file fs (substring 0 (String.length path - 2) path ++ ".d") ;;
              Ok (Some d)) ;;
  init (mk_revlog idx dt inl gd [0]).

(** [read_revlog]: open, then print revisions 0, 1 and 2. *)
Definition read_revlog (fuel : nat) (path : string) (fs : string -> option (list byte))
  : result unit :=
  revlog <- open path fs ;;
  _ <- entry fuel revlog 0 ;;
  _ <- entry fuel revlog 1 ;;
  _ <- entry fuel revlog 2 ;;
  Ok tt.

(** [dump_revlog_hex]: the 16-byte rows it prints, in order;
    [split_at(16)] panics on a shorter nonempty rest. *)
Fixpoint dump_rows (fuel : nat) (data : list byte) : result (list (list byte)) :=
  match fuel with
  | O => Diverge
  | S f =>
    if (length data =? 0)%nat then Ok [] else
    if (length data <? 16)%nat then Panic else
    rows <- dump_rows f (skipn 16 data) ;; Ok (firstn 16 data :: rows)
  end.

Definition dump_revlog_hex (data : list byte) : result (list (list byte)) :=
  dump_rows (S (length data)) data.

End MainRevlog.

(** * Patch engine: proofs *)

Module PatchFacts.
Import Patch.

Lemma bytes_slice_ok buf b e :
  b <= e -> e <= length buf ->
  bytes_slice buf b e = Some (firstn (e - b) (skipn b buf)).
Proof.
  intros H1 H2. unfold bytes_slice.
  apply Nat.leb_le in H1. apply Nat.leb_le in H2. now rewrite H1, H2.
Qed.

(** The loop over the stream is the loop over its decoded hunks, and it
    panics when the decoding does. *)
Lemma patch_loop_hunks fuel : forall buf cur last next,
  match decode_hunks fuel cur with
  | Some hs => patch_loop fuel buf cur last next = run_hunks buf hs last next
  | None => patch_loop fuel buf cur last next = None
  end.
Proof.
  induction fuel as [|fuel IH]; intros buf cur last next.
  - destruct cur; reflexivity.
  - destruct cur as [|x cur']; [reflexivity|].
    cbn [decode_hunks patch_loop].
    destruct (decode_header (x :: cur')) as [[[[a b] c] cur1]|]; [|reflexivity].
    destruct (read_slice cur1 c) as [[piece cur2]|]; [|reflexivity].
    specialize (IH buf cur2 b).
    destruct (decode_hunks fuel cur2) as [hs|] eqn:Hd.
    + cbn [run_hunks]. destruct (bytes_slice buf last a); [apply IH|reflexivity].
    + destruct (bytes_slice buf last a); [apply IH|reflexivity].
Qed.

Lemma run_hunks_wf buf hs : forall last next,
  hunks_wf (length buf) last hs = true ->
  exists l' out, run_hunks buf hs last next = Some (l', out) /\
    l' <= length buf /\ out ++ skipn l' buf = next ++ spec_stream_from buf hs last.
Proof.
  induction hs as [|[[a b] d] t IH]; intros last next Hwf; cbn [hunks_wf] in Hwf.
  - apply Nat.leb_le in Hwf. exists last, next. repeat split; auto.
  - apply andb_prop in Hwf as [Hwf Ht].
    apply andb_prop in Hwf as [Hwf Hb].
    apply andb_prop in Hwf as [Ha Hab].
    apply Nat.leb_le in Ha. apply Nat.leb_le in Hab. apply Nat.leb_le in Hb.
    cbn [run_hunks spec_stream_from].
    rewrite bytes_slice_ok by lia.
    destruct (IH b (next ++ firstn (a - last) (skipn last buf) ++ d) Ht)
      as (l' & out & Hrun & Hl & Heq).
    exists l', out. repeat split; auto.
    rewrite Heq. now rewrite <- !app_assoc.
Qed.

Lemma apply_patch_spec S P hs :
  hunks_of P = Some hs -> hunks_wf (length S) 0 hs = true ->
  apply_patch S P = Some (spec_stream S hs).
Proof.
  intros Hd Hwf. unfold apply_patch, hunks_of in *.
  pose proof (patch_loop_hunks (length P) S P 0 []) as Hl.
  rewrite Hd in Hl. rewrite Hl.
  destruct (run_hunks_wf S hs 0 [] Hwf) as (l' & out & Hrun & Hle & Heq).
  rewrite Hrun. unfold spec_stream. cbn [app] in Heq. rewrite <- Heq.
  destruct (Nat.eqb_spec l' (length S)) as [E|E]; cbn [negb].
  - subst l'. now rewrite skipn_all, app_nil_r.
  - unfold bytes_slice_from. rewrite bytes_slice_ok by lia.
    rewrite firstn_all2; [reflexivity|]. rewrite length_skipn. lia.
Qed.

Lemma spec_stream_from_length src hs : forall cursor,
  hunks_wf (length src) cursor hs = true ->
  Z.of_nat (length (spec_stream_from src hs cursor)) =
    (Z.of_nat (length src) - Z.of_nat cursor - sum_del hs + sum_ins hs)%Z.
Proof.
  induction hs as [|[[a b] d] t IH]; intros cursor Hwf; cbn [hunks_wf] in Hwf.
  - apply Nat.leb_le in Hwf. cbn. rewrite length_skipn. lia.
  - apply andb_prop in Hwf as [Hwf Ht].
    apply andb_prop in Hwf as [Hwf Hb].
    apply andb_prop in Hwf as [Ha Hab].
    apply Nat.leb_le in Ha. apply Nat.leb_le in Hab. apply Nat.leb_le in Hb.
    cbn [spec_stream_from sum_del sum_ins fold_right].
    fold (sum_del t). fold (sum_ins t).
    rewrite !length_app, length_firstn, length_skipn.
    specialize (IH b Ht). lia.
Qed.

Lemma read_u32_length cur n rest :
  read_u32 cur = Some (n, rest) -> length cur = 4 + length rest.
Proof.
  unfold read_u32. destruct cur as [|? [|? [|? [|? ?]]]]; try discriminate.
  intros H. injection H as _ <-. reflexivity.
Qed.

Lemma decode_header_length cur a b c rest :
  decode_header cur = Some ((a, b, c), rest) -> length cur = 12 + length rest.
Proof.
  unfold decode_header.
  destruct (read_u32 cur) as [[x1 r1]|] eqn:H1; [|discriminate].
  destruct (read_u32 r1) as [[x2 r2]|] eqn:H2; [|discriminate].
  destruct (read_u32 r2) as [[x3 r3]|] eqn:H3; [|discriminate].
  intros H. injection H as _ _ _ <-.
  apply read_u32_length in H1, H2, H3. lia.
Qed.

(** With enough iterations, the decoding of the hunks fails only on a
    truncated stream. *)
Lemma decode_hunks_none_truncated fuel : forall cur,
  length cur <= fuel -> decode_hunks fuel cur = None -> truncated cur.
Proof.
  induction fuel as [|fuel IH]; intros cur Hlen Hd.
  - destruct cur; [discriminate|cbn in Hlen; lia].
  - destruct cur as [|x cur']; [discriminate|].
    cbn [decode_hunks] in Hd.
    destruct (decode_header (x :: cur')) as [[[[a b] c] cur1]|] eqn:Hh.
    + unfold read_slice in Hd.
      destruct (Nat.leb_spec c (length cur1)) as [Hc|Hc].
      * apply (trunc_later _ a b c cur1 Hh Hc). apply IH.
        -- apply decode_header_length in Hh. rewrite length_skipn. cbn in *. lia.
        -- destruct (decode_hunks fuel (skipn c cur1)); [discriminate|reflexivity].
      * exact (trunc_data _ a b c cur1 Hh Hc).
    + apply trunc_header; [discriminate|exact Hh].
Qed.

Lemma patch_loop_truncated cur : truncated cur ->
  forall fuel buf last next, patch_loop fuel buf cur last next = None.
Proof.
  induction 1 as [cur Hne Hh|cur a b c cur1 Hh Hc|cur a b c cur1 Hh Hc Ht IH];
    intros fuel buf last next;
    (destruct cur as [|x cur']; [try contradiction; discriminate|]);
    (destruct fuel as [|fuel]; [reflexivity|]);
    cbn [patch_loop]; rewrite Hh; try reflexivity.
  - unfold read_slice. destruct (Nat.leb_spec c (length cur1)); [lia|reflexivity].
  - unfold read_slice. destruct (Nat.leb_spec c (length cur1)); [|lia].
    destruct (bytes_slice buf last a); [apply IH|reflexivity].
Qed.

(** C1: composition is sequencing, and within a stream every hunk's
    offsets are taken against the buffer as it stood at the start of that
    stream ([spec_stream] cuts all its slices from its [src]). *)
Theorem apply_compose_stream_start S P1 P2 hs1 hs2 :
  hunks_of P1 = Some hs1 -> hunks_wf (length S) 0 hs1 = true ->
  hunks_of P2 = Some hs2 ->
  hunks_wf (length (spec_stream S hs1)) 0 hs2 = true ->
  apply S [P1] = Some (spec_stream S hs1) /\
  apply S [P1; P2] = Some (spec_stream (spec_stream S hs1) hs2) /\
  apply S [P1; P2] =
    match apply S [P1] with Some T => apply T [P2] | None => None end.
Proof.
  intros H1 W1 H2 W2. cbn [apply].
  rewrite (apply_patch_spec S P1 hs1 H1 W1).
  rewrite (apply_patch_spec _ P2 hs2 H2 W2).
  repeat split; reflexivity.
Qed.

(** Scenario S4 of the specification. *)
Lemma apply_compose_stream_start_witness :
  hunks_of (enc_hunk 0 2 (list_byte_of_string "BB")) =
    Some [(0, 2, list_byte_of_string "BB")] /\
  hunks_of (enc_hunk 2 4 (list_byte_of_string "C")) =
    Some [(2, 4, list_byte_of_string "C")] /\
  apply (list_byte_of_string "AAAA")
    [enc_hunk 0 2 (list_byte_of_string "BB"); enc_hunk 2 4 (list_byte_of_string "C")]
  = Some (list_byte_of_string "BBC").
Proof.
  split; [vm_compute; reflexivity|].
  split; [vm_compute; reflexivity|].
  destruct (apply_compose_stream_start (list_byte_of_string "AAAA")
              (enc_hunk 0 2 (list_byte_of_string "BB"))
              (enc_hunk 2 4 (list_byte_of_string "C"))
              [(0, 2, list_byte_of_string "BB")] [(2, 4, list_byte_of_string "C")])
    as [_ [H _]];
    [vm_compute; reflexivity .. |].
  rewrite H. vm_compute. reflexivity.
Defined.

(** C6: the length law of one well-formed stream. *)
Theorem apply_length_law S P hs :
  hunks_of P = Some hs -> hunks_wf (length S) 0 hs = true ->
  exists out, apply S [P] = Some out /\
    Z.of_nat (length out) = (Z.of_nat (length S) - sum_del hs + sum_ins hs)%Z.
Proof.
  intros Hd Hwf. exists (spec_stream S hs). split.
  - cbn [apply]. now rewrite (apply_patch_spec S P hs Hd Hwf).
  - unfold spec_stream. rewrite (spec_stream_from_length S hs 0 Hwf). lia.
Qed.

(** Scenario S3: 11 - (11 - 6) + 5 = 11. *)
Lemma apply_length_law_witness :
  exists out,
    apply (list_byte_of_string "hello world")
      [enc_hunk 6 11 (list_byte_of_string "earth")] = Some out /\
    Z.of_nat (length out) = 11%Z.
Proof.
  destruct (apply_length_law (list_byte_of_string "hello world")
              (enc_hunk 6 11 (list_byte_of_string "earth"))
              [(6, 11, list_byte_of_string "earth")])
    as [out [H1 H2]]; [vm_compute; reflexivity .. |].
  exists out. split; [exact H1|]. rewrite H2. vm_compute. reflexivity.
Defined.

Lemma byte_of_Z_to_N w : Z.of_N (Byte.to_N (byte_of_Z w)) = (w mod 256)%Z.
Proof.
  unfold byte_of_Z. pose proof (Z.mod_pos_bound w 256 ltac:(lia)) as Hb.
  destruct (Byte.of_N (Z.to_N (w mod 256))) as [x|] eqn:E.
  - apply Byte.to_of_N in E. rewrite E. lia.
  - apply Byte.of_N_None_iff in E. lia.
Qed.

Lemma be_split4_eq z :
  be_split 4 z = [byte_of_Z (z / 256 / 256 / 256); byte_of_Z (z / 256 / 256);
                  byte_of_Z (z / 256); byte_of_Z z].
Proof. reflexivity. Qed.

Lemma be_split_length n : forall z, length (be_split n z) = n.
Proof.
  induction n as [|n IH]; intros z; [reflexivity|].
  cbn [be_split]. rewrite length_app, IH. cbn. lia.
Qed.

Lemma read_u32_be_split z rest :
  (0 <= z < 2 ^ 32)%Z -> read_u32 (be_split 4 z ++ rest) = Some (Z.to_nat z, rest).
Proof.
  intros Hz. rewrite be_split4_eq. cbn [app read_u32].
  unfold be_combine. cbn [fold_left]. rewrite !byte_of_Z_to_N.
  assert (E : ((((0 * 256 + z / 256 / 256 / 256 mod 256) * 256 + z / 256 / 256 mod 256) * 256
                + z / 256 mod 256) * 256 + z mod 256 = z)%Z).
  { rewrite (Z.mod_small (z / 256 / 256 / 256)) by
      (split; [apply Z.div_pos; [apply Z.div_pos; [apply Z.div_pos|]|]; lia|
               rewrite !Z.div_div by lia; apply Z.div_lt_upper_bound; lia]).
    pose proof (Z.div_mod z 256 ltac:(lia)).
    pose proof (Z.div_mod (z / 256) 256 ltac:(lia)).
    pose proof (Z.div_mod (z / 256 / 256) 256 ltac:(lia)).
    lia. }
  rewrite E. reflexivity.
Qed.

Lemma patch_loop_step f buf cur last next a b c cur1 piece cur2 keep :
  cur <> [] -> decode_header cur = Some ((a, b, c), cur1) ->
  read_slice cur1 c = Some (piece, cur2) -> bytes_slice buf last a = Some keep ->
  patch_loop (S f) buf cur last next = patch_loop f buf cur2 b (next ++ keep ++ piece).
Proof.
  intros Hne Hh Hr Hk. destruct cur as [|x xs]; [contradiction|].
  cbn [patch_loop]. rewrite Hh, Hr, Hk. reflexivity.
Qed.

Lemma patch_loop_nil f buf last next :
  patch_loop f buf [] last next = Some (last, next).
Proof. destruct f; reflexivity. Qed.

Lemma decode_header_be_split a b c rest :
  (0 <= a < 2 ^ 32)%Z -> (0 <= b < 2 ^ 32)%Z -> (0 <= c < 2 ^ 32)%Z ->
  decode_header (be_split 4 a ++ be_split 4 b ++ be_split 4 c ++ rest) =
    Some ((Z.to_nat a, Z.to_nat b, Z.to_nat c), rest).
Proof.
  intros Ha Hb Hc. unfold decode_header.
  rewrite (read_u32_be_split a) by exact Ha.
  rewrite (read_u32_be_split b) by exact Hb.
  rewrite (read_u32_be_split c) by exact Hc.
  reflexivity.
Qed.

Lemma apply_one_hunk base (a b : nat) d :
  a <= length base -> b <= length base ->
  (Z.of_nat a < 2 ^ 32)%Z -> (Z.of_nat b < 2 ^ 32)%Z -> (Z.of_nat (length d) < 2 ^ 32)%Z ->
  apply base [enc_hunk (Z.of_nat a) (Z.of_nat b) d] = Some (firstn a base ++ d ++ skipn b base).
Proof.
  intros Ha Hb Ha' Hb' Hd.
  cbn [apply]. unfold apply_patch.
  set (P := enc_hunk (Z.of_nat a) (Z.of_nat b) d).
  assert (Hlen : length P = S (11 + length d)).
  { unfold P, enc_hunk. rewrite !length_app, !be_split_length. lia. }
  assert (Hne : P <> []) by (intros E; rewrite E in Hlen; discriminate).
  assert (Hh : decode_header P = Some ((a, b, length d), d)).
  { unfold P, enc_hunk. rewrite decode_header_be_split by lia.
    rewrite !Nat2Z.id. reflexivity. }
  assert (Hr : read_slice d (length d) = Some (d, [])).
  { unfold read_slice. rewrite Nat.leb_refl, firstn_all, skipn_all. reflexivity. }
  assert (Hk : bytes_slice base 0 a = Some (firstn a base)).
  { rewrite bytes_slice_ok by lia. rewrite Nat.sub_0_r. reflexivity. }
  rewrite Hlen, (patch_loop_step _ _ _ _ _ _ _ _ _ _ _ _ Hne Hh Hr Hk).
  rewrite patch_loop_nil. cbn [app].
  destruct (Nat.eqb_spec b (length base)) as [E|E]; cbn [negb].
  - subst b. rewrite skipn_all. rewrite app_nil_r. reflexivity.
  - unfold bytes_slice_from. rewrite bytes_slice_ok by lia.
    replace (length base - b) with (length (skipn b base)) by apply length_skipn.
    rewrite firstn_all, <- app_assoc. reflexivity.
Qed.

(** C7 refuted: a hunk with [a > b] (here [a = 2], [b = 1] on "AB") is not
    rejected; [apply] returns a buffer, with the byte at 1 written twice. *)
Lemma apply_accepts_reversed_hunk :
  apply (list_byte_of_string "AB") [enc_hunk 2 1 []] =
    Some (list_byte_of_string "ABB").
Proof. vm_compute. reflexivity. Qed.

(** C7 as amended: [apply] has no error result. A stream truncated before
    a full 12-byte header or before the [c] data bytes of a hunk makes it
    panic, whatever the buffer and the later streams; a hunk with [a > b]
    within the buffer is accepted: it keeps [buf[..a]], inserts its data
    and resumes at [buf[b..]], so the bytes between [b] and [a] appear
    twice (on "AB" the hunk [(2, 1, "")] gives "ABB"). *)
Theorem apply_no_badpatch_error :
  (forall S P Ps, truncated P -> apply S (P :: Ps) = None) /\
  (forall S (a b : nat) d, b < a -> a <= length S -> (Z.of_nat a < 2 ^ 32)%Z ->
     (Z.of_nat (length d) < 2 ^ 32)%Z ->
     apply S [enc_hunk (Z.of_nat a) (Z.of_nat b) d] =
       Some (firstn a S ++ d ++ skipn b S)) /\
  apply (list_byte_of_string "AB") [enc_hunk 2 1 []] =
    Some (list_byte_of_string "ABB").
Proof.
  split; [|split].
  - intros S P Ps Ht. cbn [apply]. unfold apply_patch.
    now rewrite (patch_loop_truncated P Ht).
  - intros S a b d Hba Ha Ha32 Hd.
    apply apply_one_hunk; lia.
  - vm_compute. reflexivity.
Qed.

(** A stream of 11 bytes: one byte short of a header; and the hunk
    [(2, 1, "x")] on "ABC", which gives "ABxBC". *)
Lemma apply_no_badpatch_error_witness :
  apply (list_byte_of_string "AB") [firstn 11 (enc_hunk 0 1 [])] = None /\
  apply (list_byte_of_string "ABC") [enc_hunk 2 1 (list_byte_of_string "x")] =
    Some (list_byte_of_string "ABxBC").
Proof.
  destruct apply_no_badpatch_error as [H [H2 _]]. split.
  - apply H. apply trunc_header; [discriminate|vm_compute; reflexivity].
  - exact (H2 (list_byte_of_string "ABC") 2 1 (list_byte_of_string "x")
             ltac:(lia) ltac:(cbn; lia) ltac:(lia) ltac:(cbn; lia)).
Defined.

(** C8: the empty stream is the identity. *)
Theorem apply_empty_identity S : apply S [[]] = Some S.
Proof.
  cbn [apply]. unfold apply_patch. cbn [length patch_loop].
  destruct (Nat.eqb_spec 0 (length S)) as [E|E]; cbn [negb].
  - destruct S; [reflexivity|discriminate].
  - unfold bytes_slice_from. rewrite bytes_slice_ok by lia.
    rewrite Nat.sub_0_r, skipn_O, firstn_all. reflexivity.
Qed.

End PatchFacts.

(** * Revlog reader: proofs *)

Module RevlogFacts.
Import Revlog.
Open Scope Z_scope.

Lemma be_combine_nonneg bs : 0 <= be_combine bs.
Proof.
  unfold be_combine.
  assert (G : forall l acc, 0 <= acc ->
    0 <= fold_left (fun acc b => acc * 256 + Z.of_N (Byte.to_N b)) l acc).
  { induction l as [|b l IH]; intros acc Hacc; cbn [fold_left]; [exact Hacc|].
    apply IH. lia. }
  apply G. lia.
Qed.

Lemma i32_from_be_lower bs : - 2 ^ 32 <= i32_from_be bs.
Proof.
  unfold i32_from_be. pose proof (be_combine_nonneg bs).
  destruct (be_combine bs <? 2 ^ 31); lia.
Qed.

Lemma map_file_ok fs p bs : map_file fs p = Ok bs -> fs p = Some bs /\ bs <> [].
Proof.
  unfold map_file. destruct (fs p) as [[|x xs]|]; intros H; try discriminate.
  injection H as <-. split; [reflexivity|discriminate].
Qed.

Lemma map_file_some fs p bs : fs p = Some bs -> bs <> [] -> map_file fs p = Ok bs.
Proof. intros H Hne. unfold map_file. rewrite H. destruct bs; [contradiction|reflexivity]. Qed.

Lemma extract_value_ok m size idx v :
  extract_value m size idx = Ok v ->
  0 <= idx /\ idx + size <= Z.of_nat (length m) /\
  v = firstn (Z.to_nat size) (skipn (Z.to_nat idx) m).
Proof.
  unfold extract_value.
  destruct (Z.leb_spec 0 idx); cbn [negb]; [|discriminate].
  destruct (Z.leb_spec (idx + size) (Z.of_nat (length m))); cbn [negb]; [|discriminate].
  intros Hok. injection Hok as <-. auto.
Qed.

Lemma extract_slice_ok m idx l v :
  extract_slice m idx l = Ok v ->
  0 <= idx /\ l < 2 ^ 63 /\ idx + l <= Z.of_nat (length m) /\
  v = firstn (Z.to_nat l) (skipn (Z.to_nat idx) m).
Proof.
  unfold extract_slice, isize_of_usize.
  destruct (Z.leb_spec 0 idx); cbn [negb]; [|discriminate].
  destruct (Z.ltb_spec l (2 ^ 63)) as [Hl|Hl].
  - destruct (Z.leb_spec (idx + l) (Z.of_nat (length m))); cbn [negb]; [|discriminate].
    destruct (Z.leb_spec (2 ^ 63) l); [lia|].
    intros Hok. injection Hok as <-. auto.
  - destruct (Z.leb_spec (idx + (l - 2 ^ 64)) (Z.of_nat (length m))); cbn [negb];
      [|discriminate].
    destruct (Z.leb_spec (2 ^ 63) l); [discriminate|lia].
Qed.

Lemma usize_of_i32_small c :
  - 2 ^ 32 <= c -> usize_of_i32 c < 2 ^ 63 -> usize_of_i32 c = c /\ 0 <= c.
Proof. unfold usize_of_i32. destruct (Z.ltb_spec c 0); lia. Qed.

(** The sanity checks at the end of [index_entry_at_byte] build the entry
    or fail. *)
Lemma entry_tail_ok (zeros : bool) r c off (d : list byte) e :
  (if negb zeros then Err "expect failed: c_node_id[20..] == [0; 12]" else
   match d with
   | [] => Ok (mkEntry r c off d)
   | d0 :: _ => if frame_ok d0 then Ok (mkEntry r c off d) else Err "Weird data type"
   end) = Ok e ->
  e = mkEntry r c off d /\ zeros = true /\
  (forall d0 d', d = d0 :: d' -> frame_ok d0 = true).
Proof.
  destruct zeros; cbn [negb]; [|discriminate].
  destruct d as [|d0 d'].
  - intros H. injection H as <-. split; [reflexivity|split; [reflexivity|]].
    intros ? ? H; discriminate H.
  - destruct (frame_ok d0) eqn:Hf; [|discriminate].
    intros H. injection H as <-. split; [reflexivity|split; [reflexivity|]].
    intros x y H. injection H as -> ->. exact Hf.
Qed.

(** What an entry returned by [index_entry_at_byte] is made of. *)
Lemma index_entry_at_byte_ok rl off ro e :
  index_entry_at_byte rl off ro = Ok e ->
  byte_offset e = off /\ 0 <= off /\ off + 64 <= Z.of_nat (length (rl_index rl)) /\
  chunk e = firstn 64 (skipn (Z.to_nat off) (rl_index rl)) /\
  0 <= comp_len (chunk e) /\
  match rl_data rl with
  | None =>
      off + 64 + comp_len (chunk e) <= Z.of_nat (length (rl_index rl)) /\
      data e = firstn (Z.to_nat (comp_len (chunk e)))
                 (skipn (Z.to_nat (off + 64)) (rl_index rl))
  | Some d =>
      data e = firstn (Z.to_nat (comp_len (chunk e)))
                 (skipn (Z.to_nat (if off =? 0 then 0 else chunk_offset (chunk e))) d)
  end /\
  match ro with
  | Some x => revno e = x
  | None => revno_from_offset rl off = Ok (revno e)
  end.
Proof.
  unfold index_entry_at_byte.
  destruct (negb (inline rl) && negb (Z.rem off 64 =? 0)); [discriminate|].
  destruct (extract_value (rl_index rl) 64 off) as [c| | |] eqn:Hv;
    cbn [bind]; try discriminate.
  apply extract_value_ok in Hv as (H0 & H64 & Hc).
  pose proof (i32_from_be_lower (field c 8 4)) as Hlow.
  destruct (rl_data rl) as [dfile|] eqn:Hd.
  - destruct (extract_slice dfile (if off =? 0 then 0 else chunk_offset c)
                (usize_of_i32 (comp_len c))) as [d| | |] eqn:Hs;
      cbn [bind]; try discriminate.
    apply extract_slice_ok in Hs as (_ & Hl & _ & Hdv).
    apply usize_of_i32_small in Hl as [Hu Hcl]; [|exact Hlow].
    rewrite Hu in Hdv.
    destruct ro as [x|].
    + cbn [bind]. intros H. apply entry_tail_ok in H as [-> _]. cbn.
      repeat split; auto; lia.
    + destruct (revno_from_offset rl off) as [r| | |] eqn:Hr; cbn [bind]; try discriminate.
      intros H. apply entry_tail_ok in H as [-> _]. cbn.
      repeat split; auto; lia.
  - destruct (extract_slice (rl_index rl) (off + 64) (usize_of_i32 (comp_len c)))
      as [d| | |] eqn:Hs; cbn [bind]; try discriminate.
    apply extract_slice_ok in Hs as (_ & Hl & Hend & Hdv).
    apply usize_of_i32_small in Hl as [Hu Hcl]; [|exact Hlow].
    rewrite Hu in Hdv, Hend.
    destruct ro as [x|].
    + cbn [bind]. intros H. apply entry_tail_ok in H as [-> _]. cbn.
      repeat split; auto; lia.
    + destruct (revno_from_offset rl off) as [r| | |] eqn:Hr; cbn [bind]; try discriminate.
      intros H. apply entry_tail_ok in H as [-> _]. cbn.
      repeat split; auto; lia.
Qed.

(** C9: the record at byte offset 0 reports data offset 0, whatever its
    [offset_flags] hold, in both storage modes. *)
Theorem record0_offset_zero rl ro e :
  index_entry_at_byte rl 0 ro = Ok e -> byte_offset e = 0 /\ entry_offset e = 0.
Proof.
  intros H. apply index_entry_at_byte_ok in H as (Hoff & _).
  unfold entry_offset. rewrite Hoff. split; reflexivity.
Qed.

(** Record 0 of a separate revlog: its raw [offset_flags] carry the flag
    word, whose [>> 16] is 65536, and [offset()] is still 0. *)
Lemma record0_offset_zero_witness :
  open "data/f.i" (fs_sep REVLOGNG 0 0) = Ok (sep_rl REVLOGNG 0 0) /\
  exists e, index_entry_at_byte (sep_rl REVLOGNG 0 0) 0 None = Ok e /\
    chunk_offset (chunk e) = 65536 /\ entry_offset e = 0.
Proof.
  split; [vm_compute; reflexivity|].
  eexists. split; [reflexivity|]. split; [vm_compute; reflexivity|].
  eapply (record0_offset_zero (sep_rl REVLOGNG 0 0) None). reflexivity.
Defined.

(** C2 refuted: record 1 of [sep_rl] has [offset_flags = 3 << 16]; the
    reader takes its payload at offset 3 of the data file, not at the low
    48 bits of the word (196608). *)
Lemma data_offset_not_low_48_bits :
  exists e, index_entry_at_byte (sep_rl REVLOGNG 0 0) 64 None = Ok e /\
    offset_flags (chunk e) = 196608 /\
    Z.land (offset_flags (chunk e)) (2 ^ 48 - 1) = 196608 /\
    entry_offset e = 3 /\ data e = [Byte.x75; Byte.x43].
Proof.
  eexists. split; [reflexivity|]. vm_compute. repeat split.
Qed.

(** C2 as amended: for every record at a non-zero byte offset, inline or
    separate, the data offset is [offset_flags >> 16], the high 48 bits of
    the word (the low 16 bits are the flags); in separate mode the payload
    is read from that offset of the data file. *)
Theorem separate_data_offset rl off ro e :
  off <> 0 -> index_entry_at_byte rl off ro = Ok e ->
  entry_offset e = Z.shiftr (offset_flags (chunk e)) 16 /\
  offset_flags (chunk e) =
    entry_offset e * 2 ^ 16 + Z.land (offset_flags (chunk e)) 65535 /\
  (forall d, rl_data rl = Some d ->
     data e = firstn (Z.to_nat (comp_len (chunk e)))
                (skipn (Z.to_nat (entry_offset e)) d)).
Proof.
  intros Hne H.
  apply index_entry_at_byte_ok in H as (Hoff & _ & _ & _ & _ & Hdata & _).
  assert (Hz : (off =? 0) = false) by (apply Z.eqb_neq; exact Hne).
  assert (He : entry_offset e = chunk_offset (chunk e)).
  { unfold entry_offset. rewrite Hoff, Hz. reflexivity. }
  rewrite He. split; [reflexivity|]. split.
  - unfold chunk_offset. rewrite Z.shiftr_div_pow2 by lia.
    change 65535 with (Z.ones 16). rewrite Z.land_ones by lia.
    rewrite Z.mul_comm. apply Z.div_mod. lia.
  - intros d Hd. rewrite Hd, Hz in Hdata. exact Hdata.
Qed.

Lemma separate_data_offset_witness :
  (exists e, index_entry_at_byte (sep_rl REVLOGNG 0 0) 64 None = Ok e /\
    entry_offset e = 3 /\ data e = [Byte.x75; Byte.x43]) /\
  (exists e, index_entry_at_byte (mkRevlog inline_idx None false [0; 67] false) 67 None
      = Ok e /\ entry_offset e = Z.shiftr (offset_flags (chunk e)) 16).
Proof.
  split.
  - eexists. split; [reflexivity|].
    destruct (separate_data_offset (sep_rl REVLOGNG 0 0) 64 None _
                ltac:(discriminate) eq_refl) as [H1 [_ H3]].
    split.
    + rewrite H1. vm_compute. reflexivity.
    + rewrite (H3 sep_data eq_refl). vm_compute. reflexivity.
  - eexists. split; [reflexivity|].
    exact (proj1 (separate_data_offset (mkRevlog inline_idx None false [0; 67] false)
                    67 None _ ltac:(discriminate) eq_refl)).
Defined.

(** An entry found during the scan is found again, with a given revno, in
    any revlog over the same files. *)
Lemma index_entry_at_byte_some rl rl' off e i :
  rl_index rl' = rl_index rl -> rl_data rl' = rl_data rl ->
  index_entry_at_byte rl off None = Ok e ->
  index_entry_at_byte rl' off (Some i) = Ok (mkEntry i (chunk e) (byte_offset e) (data e)).
Proof.
  intros Hi Hd. unfold index_entry_at_byte.
  assert (Hin : inline rl' = inline rl) by (unfold inline; now rewrite Hd).
  rewrite Hin, Hi, Hd.
  destruct (negb (inline rl) && negb (Z.rem off 64 =? 0)); [discriminate|].
  destruct (extract_value (rl_index rl) 64 off) as [c| | |]; cbn [bind]; try discriminate.
  destruct (match rl_data rl with
            | Some dfile => extract_slice dfile (if off =? 0 then 0 else chunk_offset c)
                              (usize_of_i32 (comp_len c))
            | None => extract_slice (rl_index rl) (off + 64) (usize_of_i32 (comp_len c))
            end) as [d| | |]; cbn [bind]; try discriminate.
  destruct (revno_from_offset rl off) as [r| | |]; cbn [bind]; try discriminate.
  intros H. pose proof H as H'. apply entry_tail_ok in H' as [-> [Hz Hf]].
  rewrite Hz. cbn [negb chunk byte_offset data].
  destruct d as [|d0 d']; [reflexivity|]. rewrite (Hf d0 d' eq_refl). reflexivity.
Qed.

Lemma scan_from_entry rl fuel : forall e acc tbl,
  inline rl = true -> scan fuel rl (Some e) acc = Ok tbl ->
  exists tl, tbl = acc ++ tl /\
    ((next_of e = Z.of_nat (length (rl_index rl)) /\ tl = []) \/
     (next_of e <> Z.of_nat (length (rl_index rl)) /\ scanned rl (next_of e) tl)).
Proof.
  induction fuel as [|fuel IH]; intros e acc tbl Hin H; cbn [scan] in H; [discriminate|].
  unfold iter_next in H. rewrite Hin in H. unfold inline_advance in H.
  fold (next_of e) in H.
  destruct (Z.eqb_spec (next_of e) (Z.of_nat (length (rl_index rl)))) as [E|E].
  - injection H as <-. exists []. rewrite app_nil_r. auto.
  - destruct (index_entry_at_byte rl (next_of e) None) as [e'| | |] eqn:He';
      cbn [bind] in H; try discriminate.
    destruct (IH e' _ _ Hin H) as (tl & -> & Hafter).
    pose proof He' as Hok. apply index_entry_at_byte_ok in Hok as (Hoff & _).
    exists (next_of e :: tl). rewrite Hoff, <- app_assoc. split; [reflexivity|].
    right. split; [exact E|].
    destruct Hafter as [[Hend ->]|[Hne Hsc]].
    + exact (scanned_end rl _ e' He' Hend).
    + exact (scanned_more rl _ e' tl He' Hne Hsc).
Qed.

Lemma scan_start rl fuel tbl :
  inline rl = true -> scan fuel rl None [] = Ok tbl -> scanned rl 0 tbl.
Proof.
  intros Hin H. destruct fuel as [|fuel]; cbn [scan] in H; [discriminate|].
  unfold iter_next in H.
  destruct (index_entry_at_byte rl 0 None) as [e| | |] eqn:He; cbn [bind] in H;
    try discriminate.
  destruct (scan_from_entry rl fuel e _ _ Hin H) as (tl & -> & Hafter).
  pose proof He as Hok. apply index_entry_at_byte_ok in Hok as (Hoff & _).
  rewrite Hoff. cbn [app].
  destruct Hafter as [[Hend ->]|[Hne Hsc]].
  - exact (scanned_end rl 0 e He Hend).
  - exact (scanned_more rl 0 e tl He Hne Hsc).
Qed.

Lemma scanned_next_gt rl off e :
  index_entry_at_byte rl off None = Ok e -> off < next_of e.
Proof.
  intros H. apply index_entry_at_byte_ok in H as (Hoff & _ & _ & _ & Hc & _).
  unfold next_of. lia.
Qed.

Lemma scanned_sorted rl off tl :
  scanned rl off tl -> StronglySorted Z.lt tl /\ Forall (Z.le off) tl.
Proof.
  induction 1 as [off e He Hend|off e tl He Hne Hsc [IHs IHf]].
  - split; repeat constructor. lia.
  - pose proof (scanned_next_gt rl off e He) as Hgt.
    split.
    + constructor; [exact IHs|].
      eapply Forall_impl; [|exact IHf]. cbn. intros x Hx. lia.
    + constructor; [lia|].
      eapply Forall_impl; [|exact IHf]. cbn. intros x Hx. lia.
Qed.

Lemma scanned_entries rl off tl :
  scanned rl off tl ->
  Forall (fun x => exists e, index_entry_at_byte rl x None = Ok e) tl.
Proof.
  induction 1 as [off e He Hend|off e tl He Hne Hsc IH];
    constructor; eauto.
Qed.

Lemma scanned_last rl off tl :
  scanned rl off tl ->
  exists e, index_entry_at_byte rl (last tl 0) None = Ok e /\
    next_of e = Z.of_nat (length (rl_index rl)).
Proof.
  induction 1 as [off e He Hend|off e tl He Hne Hsc IH].
  - exists e. auto.
  - destruct tl as [|x tl']; [inversion Hsc|]. exact IH.
Qed.

Lemma scanned_head rl off tl : scanned rl off tl -> hd_error tl = Some off.
Proof. destruct 1; reflexivity. Qed.

(** ** The binary search over a strictly sorted table *)

Lemma ss_app (R : Z -> Z -> Prop) l1 l2 :
  StronglySorted R (l1 ++ l2) ->
  StronglySorted R l1 /\ StronglySorted R l2 /\ Forall (fun x => Forall (R x) l2) l1.
Proof.
  induction l1 as [|a l1 IH]; intros H; cbn [app] in H.
  - split; [constructor|]. split; [exact H|constructor].
  - apply StronglySorted_inv in H as [H Ha].
    apply Forall_app in Ha as [Ha1 Ha2].
    destruct (IH H) as (H1 & H2 & H3).
    split; [constructor; assumption|]. split; [exact H2|]. constructor; assumption.
Qed.

Lemma binary_search_loop_nth fuel : forall s base k,
  (length s < fuel)%nat -> StronglySorted Z.lt s -> (k < length s)%nat ->
  binary_search_loop fuel base s (nth k s 0) = inl (base + k)%nat.
Proof.
  induction fuel as [|f IH]; intros s base k Hlen Hs Hk; [lia|].
  cbn [binary_search_loop].
  assert (Hmid : (Nat.div2 (length s) < length s)%nat) by (apply Nat.lt_div2; lia).
  set (mid := Nat.div2 (length s)) in *.
  pose proof (firstn_skipn mid s) as Hfs.
  destruct (skipn mid s) as [|t rest] eqn:Hsk.
  { apply (f_equal (@length Z)) in Hsk. rewrite length_skipn in Hsk. cbn in Hsk. lia. }
  set (h := firstn mid s) in *.
  assert (Hh : length h = mid) by (unfold h; rewrite length_firstn; lia).
  assert (Hls : length s = (mid + S (length rest))%nat)
    by (rewrite <- Hfs, length_app, Hh; reflexivity).
  assert (Hx : nth k s 0 = nth k (h ++ t :: rest) 0) by (now rewrite Hfs).
  pose proof Hs as Hs'. rewrite <- Hfs in Hs'.
  apply ss_app in Hs' as (Hsh & Hstr & Hlt).
  destruct (lt_eq_lt_dec k mid) as [[Hkm|Hkm]|Hkm].
  - rewrite Hx, app_nth1 by lia.
    assert (Hc : (nth k h 0 < t)%Z).
    { rewrite Forall_forall in Hlt.
      specialize (Hlt (nth k h 0) ltac:(apply nth_In; lia)).
      rewrite Forall_forall in Hlt. apply Hlt. left. reflexivity. }
    assert (E : Z.compare t (nth k h 0) = Gt) by (apply Z.compare_gt_iff; exact Hc).
    rewrite E. apply IH; [lia|exact Hsh|lia].
  - subst k. rewrite Hx, app_nth2 by lia. rewrite Hh, Nat.sub_diag. cbn [nth].
    rewrite Z.compare_refl. reflexivity.
  - rewrite Hx, app_nth2 by lia. rewrite Hh.
    replace (k - mid)%nat with (S (k - mid - 1)) by lia. cbn [nth].
    apply StronglySorted_inv in Hstr as [Hrest Ht].
    assert (Hc : (t < nth (k - mid - 1) rest 0)%Z).
    { rewrite Forall_forall in Ht. apply Ht. apply nth_In. lia. }
    assert (E : Z.compare t (nth (k - mid - 1) rest 0) = Lt)
      by (apply Z.compare_lt_iff; exact Hc).
    rewrite E. rewrite IH by (try exact Hrest; lia). f_equal. lia.
Qed.

Lemma binary_search_nth s k :
  StronglySorted Z.lt s -> (k < length s)%nat -> binary_search s (nth k s 0) = inl k.
Proof.
  intros Hs Hk. unfold binary_search. apply binary_search_loop_nth; auto.
Qed.

Lemma as_i32_small z : 0 <= z < 2 ^ 31 -> as_i32 z = z.
Proof. intros H. unfold as_i32. rewrite Z.mod_small by lia. lia. Qed.

(** [Ok] is injective. *)
Lemma ok_inj {A} (a b : A) : @Ok A a = Ok b -> a = b.
Proof. intros H; injection H; auto. Qed.

(** A successful [open] of an inline revlog is the scan of its index. *)
Lemma open_inline path fs rl :
  open path fs = Ok rl -> inline rl = true ->
  rl_data rl = None /\ incomplete rl = false /\
  scan (S (length (rl_index rl)))
    (mkRevlog (rl_index rl) None (generaldelta rl) [] true) None [] =
    Ok (offset_table rl).
Proof.
  intros H Hin. unfold open in H.
  destruct (negb (ends_with path ".i")); [discriminate|].
  destruct (map_file fs path) as [idx| | |]; cbn [bind] in H; try discriminate.
  destruct (extract_value idx 64 0) as [fc| | |]; cbn [bind] in H; try discriminate.
  cbv zeta in H.
  destruct (Z.land (Z.shiftr (offset_flags fc) 32) REVLOGNG =? 0); [discriminate|].
  destruct (negb (Z.land (Z.shiftr (offset_flags fc) 32) REVLOGNGINLINEDATA =? 0)).
  - cbn [bind] in H. unfold init in H. cbn [incomplete negb inline rl_data rl_index] in H.
    destruct (scan (S (length idx)) (mkRevlog idx None (negb (Z.land (Z.shiftr (offset_flags fc) 32) REVLOGGENERALDELTA =? 0)) [] true) None []) as [tbl| | |] eqn:Hs; cbn [bind] in H; try discriminate.
    apply ok_inj in H. subst rl. cbn [rl_data incomplete rl_index generaldelta offset_table].
    split; [reflexivity|]. split; [reflexivity|]. exact Hs.
  - destruct (map_file fs _) as [d| | |]; cbn [bind] in H; try discriminate.
    unfold init in H. cbn [incomplete negb inline rl_data] in H.
    apply ok_inj in H. subst rl. discriminate Hin.
Qed.

(** C10: after a successful [open] of an inline revlog, the jump table
    starts at 0, is strictly increasing and has [len()] elements; [index(i)]
    returns the record at [offset_table[i]] with revno [i], and the binary
    search maps [offset_table[i]] back to [i]. Revnos are [i32], so the
    revlog is taken to have fewer than [2^31] revisions. *)
Theorem inline_open_jump_table path fs rl :
  open path fs = Ok rl -> inline rl = true -> len rl < 2 ^ 31 ->
  hd_error (offset_table rl) = Some 0 /\
  StronglySorted Z.lt (offset_table rl) /\
  len rl = Z.of_nat (length (offset_table rl)) /\
  forall i, 0 <= i < len rl ->
    exists e, index rl i = Ok e /\
      byte_offset e = nth (Z.to_nat i) (offset_table rl) 0 /\ revno e = i /\
      revno_from_offset rl (nth (Z.to_nat i) (offset_table rl) 0) = Ok i.
Proof.
  intros Hopen Hin Hsmall.
  destruct (open_inline path fs rl Hopen Hin) as (Hd & Hinc & Hscan).
  set (rl0 := mkRevlog (rl_index rl) None (generaldelta rl) [] true) in Hscan.
  assert (Hsc : scanned rl0 0 (offset_table rl)) by (apply (scan_start rl0 _ _ eq_refl Hscan)).
  destruct (scanned_sorted _ _ _ Hsc) as [Hsorted _].
  assert (Hlen : len rl = Z.of_nat (length (offset_table rl)))
    by (unfold len; rewrite Hin; reflexivity).
  split; [exact (scanned_head _ _ _ Hsc)|].
  split; [exact Hsorted|].
  split; [exact Hlen|].
  intros i Hi.
  set (x := nth (Z.to_nat i) (offset_table rl) 0).
  assert (Hk : (Z.to_nat i < length (offset_table rl))%nat) by lia.
  pose proof (scanned_entries _ _ _ Hsc) as Hall. rewrite Forall_forall in Hall.
  destruct (Hall x (nth_In _ _ Hk)) as [e0 He0].
  pose proof He0 as Hok. apply index_entry_at_byte_ok in Hok as (Hoff & _).
  exists (mkEntry i (chunk e0) (byte_offset e0) (data e0)).
  split; [|split; [cbn; exact Hoff|split; [reflexivity|]]].
  - unfold index. rewrite Hin.
    destruct (Z.leb_spec 0 i); [|lia]. cbn [negb].
    rewrite as_i32_small by lia.
    destruct (Z.ltb_spec i (Z.of_nat (length (offset_table rl)))); [|lia]. cbn [negb].
    apply (index_entry_at_byte_some rl0 rl); [reflexivity|exact Hd|exact He0].
  - unfold revno_from_offset. rewrite Hinc, Hin.
    unfold x. rewrite (binary_search_nth _ _ Hsorted Hk).
    rewrite Z2Nat.id by lia. rewrite as_i32_small by lia. reflexivity.
Qed.

Lemma inline_open_jump_table_witness :
  exists rl, open "data/f.i" (fs_one "data/f.i" inline_idx) = Ok rl /\
    offset_table rl = [0; 67] /\
    exists e, index rl 1 = Ok e /\ byte_offset e = 67 /\ revno e = 1.
Proof.
  exists (mkRevlog inline_idx None false [0; 67] false).
  split; [vm_compute; reflexivity|]. split; [reflexivity|].
  destruct (inline_open_jump_table "data/f.i" (fs_one "data/f.i" inline_idx)
              (mkRevlog inline_idx None false [0; 67] false)
              ltac:(vm_compute; reflexivity) eq_refl ltac:(vm_compute; reflexivity))
    as (_ & _ & _ & Hidx).
  assert (H1 : 0 <= 1 < len (mkRevlog inline_idx None false [0; 67] false))
    by (split; [lia|vm_compute; reflexivity]).
  destruct (Hidx 1 H1) as (e & He & Hoff & Hr & _).
  exists e. split; [exact He|]. split; [rewrite Hoff; vm_compute; reflexivity|exact Hr].
Defined.

(** ** Cutting bytes off the end of an inline index *)

Lemma window_prefix (m t : list byte) k n :
  (k + n <= length m)%nat -> firstn n (skipn k (m ++ t)) = firstn n (skipn k m).
Proof.
  intros H. rewrite skipn_app, firstn_app, length_skipn.
  replace (n - (length m - k))%nat with 0%nat by lia. rewrite app_nil_r. reflexivity.
Qed.

Lemma extract_value_prefix m t size i :
  0 <= size -> i + size <= Z.of_nat (length m) ->
  extract_value (m ++ t) size i = extract_value m size i.
Proof.
  intros Hs H. unfold extract_value. rewrite length_app.
  destruct (Z.leb_spec 0 i); cbn [negb]; [|reflexivity].
  destruct (Z.leb_spec (i + size) (Z.of_nat (length m + length t))); [|lia].
  destruct (Z.leb_spec (i + size) (Z.of_nat (length m))); [|lia].
  cbn [negb]. rewrite window_prefix by lia. reflexivity.
Qed.

Lemma extract_slice_prefix m t i l :
  0 <= l -> i + l <= Z.of_nat (length m) ->
  extract_slice (m ++ t) i l = extract_slice m i l.
Proof.
  intros Hl H. unfold extract_slice, isize_of_usize. rewrite length_app.
  destruct (Z.leb_spec 0 i); cbn [negb]; [|reflexivity].
  destruct (Z.ltb_spec l (2 ^ 63)).
  - destruct (Z.leb_spec (i + l) (Z.of_nat (length m + length t))); [|lia].
    destruct (Z.leb_spec (i + l) (Z.of_nat (length m))); [|lia].
    cbn [negb]. destruct (Z.leb_spec (2 ^ 63) l); [lia|].
    rewrite window_prefix by lia. reflexivity.
  - destruct (Z.leb_spec (i + (l - 2 ^ 64)) (Z.of_nat (length m + length t))); [|lia].
    destruct (Z.leb_spec (i + (l - 2 ^ 64)) (Z.of_nat (length m))); [|lia].
    cbn [negb]. destruct (Z.leb_spec (2 ^ 63) l); [reflexivity|lia].
Qed.

(** During the scan of [open], a record of the index [m ++ t] whose
    payload ends within [m] is read the same from [m]. *)
Lemma entry_prefix_ok m t g g' off e :
  index_entry_at_byte (mkRevlog (m ++ t) None g [] true) off None = Ok e ->
  next_of e <= Z.of_nat (length m) ->
  index_entry_at_byte (mkRevlog m None g' [] true) off None = Ok e.
Proof.
  intros He Hn. rewrite <- He.
  pose proof He as Hok.
  apply index_entry_at_byte_ok in Hok as (Hoff & H0 & _ & Hc & Hcl & _).
  unfold next_of in Hn. rewrite Hoff in Hn.
  unfold index_entry_at_byte. cbn [inline rl_data rl_index negb andb].
  rewrite extract_value_prefix by lia.
  destruct (extract_value m 64 off) as [c| | |] eqn:Hv; cbn [bind]; try reflexivity.
  apply extract_value_ok in Hv as (_ & _ & Hcv).
  assert (Hce : c = chunk e).
  { rewrite Hc, Hcv. cbn [rl_index]. symmetry. apply window_prefix. lia. }
  rewrite Hce. unfold usize_of_i32.
  destruct (Z.ltb_spec (comp_len (chunk e)) 0); [lia|].
  rewrite extract_slice_prefix by lia.
  unfold revno_from_offset. cbn [incomplete]. reflexivity.
Qed.

(** A record of [m ++ t] whose payload ends past [m] makes the read of
    [m] panic: its 64 bytes or its payload are out of bounds. *)
Lemma entry_prefix_panic m t g g' off e :
  index_entry_at_byte (mkRevlog (m ++ t) None g [] true) off None = Ok e ->
  Z.of_nat (length m) < next_of e ->
  index_entry_at_byte (mkRevlog m None g' [] true) off None = Panic.
Proof.
  intros He Hn.
  pose proof He as Hok.
  apply index_entry_at_byte_ok in Hok as (Hoff & H0 & _ & Hc & Hcl & _).
  unfold next_of in Hn. rewrite Hoff in Hn.
  unfold index_entry_at_byte. cbn [inline rl_data rl_index negb andb].
  unfold extract_value at 1.
  destruct (Z.leb_spec 0 off); [|lia]. cbn [negb].
  destruct (Z.leb_spec (off + 64) (Z.of_nat (length m))); cbn [negb]; [|reflexivity].
  cbn [bind].
  replace (firstn (Z.to_nat 64) (skipn (Z.to_nat off) m)) with (chunk e)
    by (rewrite Hc; cbn [rl_index]; apply window_prefix; lia).
  unfold usize_of_i32.
  destruct (Z.ltb_spec (comp_len (chunk e)) 0); [lia|].
  unfold extract_slice, isize_of_usize.
  destruct (Z.leb_spec 0 (off + 64)); [|lia]. cbn [negb].
  destruct (Z.ltb_spec (comp_len (chunk e)) (2 ^ 63)).
  - destruct (Z.leb_spec (off + 64 + comp_len (chunk e)) (Z.of_nat (length m)));
      [lia|reflexivity].
  - destruct (Z.leb_spec (off + 64 + (comp_len (chunk e) - 2 ^ 64)) (Z.of_nat (length m)));
      cbn [negb]; [|reflexivity].
    destruct (Z.leb_spec (2 ^ 63) (comp_len (chunk e))); [reflexivity|lia].
Qed.

(** Every scanned record takes 64 bytes of the index at least. *)
Lemma scanned_size rl off tl :
  scanned rl off tl -> off + 64 * Z.of_nat (length tl) <= Z.of_nat (length (rl_index rl)).
Proof.
  induction 1 as [off e He Hend|off e tl He Hne Hsc IH].
  - apply index_entry_at_byte_ok in He as (_ & _ & H & _). cbn [length]. lia.
  - apply index_entry_at_byte_ok in He as (Hoff & _ & _ & _ & Hcl & _).
    unfold next_of in IH. rewrite Hoff in IH. cbn [length]. lia.
Qed.

(** The scan of [m], run alongside the completed scan of [m ++ t] with
    [t] nonempty and shorter than a record, follows the same records and
    panics at the last one. *)
Lemma scan_short_panics m t g g' off tbl :
  (0 < length t < 64)%nat ->
  scanned (mkRevlog (m ++ t) None g [] true) off tbl ->
  forall f cur acc, (length tbl <= f)%nat ->
  iter_next (mkRevlog m None g' [] true) cur =
    (e <- index_entry_at_byte (mkRevlog m None g' [] true) off None ;; Ok (Some e)) ->
  scan (S f) (mkRevlog m None g' [] true) cur acc = Panic.
Proof.
  intros Ht.
  induction 1 as [off e He Hend|off e tl He Hne Hsc IH]; intros f cur acc Hf Hcur;
    cbn [scan]; rewrite Hcur.
  - cbn [rl_index] in Hend. rewrite length_app in Hend.
    rewrite (entry_prefix_panic m t g g' off e He) by lia. reflexivity.
  - pose proof (scanned_size _ _ _ Hsc) as Hsz. cbn [rl_index] in Hsz.
    rewrite length_app in Hsz.
    assert (Htl : (1 <= length tl)%nat) by (destruct Hsc; cbn [length]; lia).
    rewrite (entry_prefix_ok m t g g' off e He) by lia. cbn [bind].
    destruct f as [|f]; [cbn [length] in Hf; lia|].
    apply IH; [cbn [length] in Hf; lia|].
    unfold iter_next. cbn [inline rl_data]. unfold inline_advance. fold (next_of e).
    cbn [rl_index].
    destruct (Z.eqb_spec (next_of e) (Z.of_nat (length m))); [lia|]. reflexivity.
Qed.

(** What a successful [open] of an inline revlog read, and how [open] goes
    on another file system whose index file has the same first record. *)
Lemma open_inline_header path fs rl :
  open path fs = Ok rl -> inline rl = true ->
  ends_with path ".i" = true /\ fs path = Some (rl_index rl) /\
  64 <= Z.of_nat (length (rl_index rl)) /\
  forall fs' m, fs' path = Some m -> 64 <= Z.of_nat (length m) ->
    firstn 64 m = firstn 64 (rl_index rl) ->
    open path fs' = init (mkRevlog m None (generaldelta rl) [] true).
Proof.
  intros H Hin. unfold open in H.
  destruct (ends_with path ".i") eqn:Hends; cbn [negb] in H; [|discriminate].
  destruct (map_file fs path) as [idx| | |] eqn:Hf; cbn [bind] in H; try discriminate.
  apply map_file_ok in Hf as [Hf _].
  unfold extract_value in H.
  destruct (Z.leb_spec 0 0); [|lia]. cbn [negb] in H.
  destruct (Z.leb_spec (0 + 64) (Z.of_nat (length idx))) as [Hl|Hl];
    cbn [negb bind] in H; [|discriminate].
  change (firstn (Z.to_nat 64) (skipn (Z.to_nat 0) idx)) with (firstn 64 idx) in H.
  cbv zeta in H.
  destruct (Z.land (Z.shiftr (offset_flags (firstn 64 idx)) 32) REVLOGNG =? 0) eqn:Hng;
    [discriminate|].
  destruct (negb (Z.land (Z.shiftr (offset_flags (firstn 64 idx)) 32)
                    REVLOGNGINLINEDATA =? 0)) eqn:Hil.
  2:{ destruct (map_file fs _) as [d| | |]; cbn [bind] in H; try discriminate.
      unfold init in H. cbn [incomplete negb inline rl_data] in H.
      apply ok_inj in H. subst rl. discriminate Hin. }
  cbn [bind] in H.
  assert (Hrl : rl_index rl = idx /\
                generaldelta rl = negb (Z.land (Z.shiftr (offset_flags (firstn 64 idx)) 32)
                                          REVLOGGENERALDELTA =? 0)).
  { unfold init in H. cbn [incomplete negb inline rl_data rl_index generaldelta] in H.
    destruct (scan _ _ None []) as [tbl| | |]; cbn [bind] in H; try discriminate.
    apply ok_inj in H. subst rl. split; reflexivity. }
  destruct Hrl as [Hidx Hgd]. rewrite Hidx.
  split; [reflexivity|]. split; [exact Hf|]. split; [lia|].
  intros fs' m Hm Hml Hfc. unfold open. rewrite Hends. cbn [negb].
  rewrite (map_file_some fs' path m Hm)
    by (intros E; rewrite E in Hml; cbn in Hml; lia).
  cbn [bind]. unfold extract_value.
  destruct (Z.leb_spec 0 0); [|lia]. cbn [negb].
  destruct (Z.leb_spec (0 + 64) (Z.of_nat (length m))); [|lia]. cbn [negb bind].
  change (firstn (Z.to_nat 64) (skipn (Z.to_nat 0) m)) with (firstn 64 m).
  rewrite Hfc. cbv zeta. rewrite Hng, Hil, Hgd. cbn [negb bind]. reflexivity.
Qed.

(** C5 refuted: the inline revlog [inline_idx] with its last byte cut off
    does not fail [open] with an error: the bounds assertion of
    [extract_slice] panics. *)
Lemma inline_short_open_panics :
  open "data/f.i" (fs_one "data/f.i" inline_idx_short) = Panic.
Proof. vm_compute. reflexivity. Qed.

(** C5 as amended: a successful [open] of an inline revlog stopped its scan
    exactly when the next offset [current + 64 + comp_len] equalled the
    index file length, so the last record of the table ends at the end of
    the file; the same index file one byte shorter makes [open] panic
    rather than fail with an error (the last record, or its payload, is
    out of bounds); [inline_idx], whose final entry reaches exactly its
    length, opens, and the file one byte shorter makes [open] panic. *)
Theorem inline_scan_ends_exactly :
  (forall path fs rl, open path fs = Ok rl -> inline rl = true ->
     offset_table rl <> [] /\
     exists e, index_entry_at_byte rl (last (offset_table rl) 0) (Some (len rl - 1)) = Ok e /\
       byte_offset e + comp_len (chunk e) + 64 = Z.of_nat (length (rl_index rl))) /\
  (forall path fs rl fs', open path fs = Ok rl -> inline rl = true ->
     fs' path = Some (removelast (rl_index rl)) -> open path fs' = Panic) /\
  (exists rl, open "data/f.i" (fs_one "data/f.i" inline_idx) = Ok rl /\ len rl = 2) /\
  open "data/f.i" (fs_one "data/f.i" inline_idx_short) = Panic.
Proof.
  split; [|split; [|split]].
  3:{ exists (mkRevlog inline_idx None false [0; 67] false).
      split; vm_compute; reflexivity. }
  3:{ vm_compute. reflexivity. }
  - intros path fs rl Hopen Hin.
    destruct (open_inline path fs rl Hopen Hin) as (Hd & _ & Hscan).
    set (rl0 := mkRevlog (rl_index rl) None (generaldelta rl) [] true) in Hscan.
    assert (Hsc : scanned rl0 0 (offset_table rl))
      by (apply (scan_start rl0 _ _ eq_refl Hscan)).
    split; [destruct Hsc; discriminate|].
    destruct (scanned_last _ _ _ Hsc) as (e0 & He0 & Hend).
    exists (mkEntry (len rl - 1) (chunk e0) (byte_offset e0) (data e0)).
    split.
    + apply (index_entry_at_byte_some rl0 rl); [reflexivity|exact Hd|exact He0].
    + exact Hend.
  - intros path fs rl fs' Hopen Hin Hfs'.
    destruct (open_inline path fs rl Hopen Hin) as (_ & _ & Hscan).
    destruct (open_inline_header path fs rl Hopen Hin) as (Hends & _ & H64 & Hsame).
    assert (Hne : rl_index rl <> []) by (intros E; rewrite E in H64; cbn in H64; lia).
    pose proof (app_removelast_last Byte.x00 Hne) as Hdec.
    remember (removelast (rl_index rl)) as m eqn:Hm.
    remember (last (rl_index rl) Byte.x00) as x eqn:Hx.
    assert (Hlm : length (rl_index rl) = S (length m))
      by (rewrite Hdec, length_app; cbn [length]; lia).
    destruct (Z.ltb_spec (Z.of_nat (length m)) 64) as [Hshort|Hlong].
    + unfold open. rewrite Hends. cbn [negb].
      rewrite (map_file_some fs' path m Hfs')
        by (intros E; rewrite E in Hlm; cbn [length] in Hlm; lia).
      cbn [bind]. unfold extract_value.
      destruct (Z.leb_spec 0 0); [|lia]. cbn [negb].
      destruct (Z.leb_spec (0 + 64) (Z.of_nat (length m))); [lia|]. reflexivity.
    + rewrite (Hsame fs' m Hfs' Hlong).
      2:{ rewrite Hdec. rewrite firstn_app.
          replace (64 - length m)%nat with 0%nat by lia. cbn [firstn]. symmetry. apply app_nil_r. }
      unfold init. cbn [incomplete negb inline rl_data rl_index].
      rewrite Hdec in Hscan.
      pose proof (scan_start (mkRevlog (m ++ [x]) None (generaldelta rl) [] true) _ _ eq_refl Hscan) as Hsc.
      pose proof (scanned_size _ _ _ Hsc) as Hsz.
      cbn [rl_index] in Hsz. rewrite length_app in Hsz. cbn [length] in Hsz.
      rewrite (scan_short_panics m [x] (generaldelta rl) (generaldelta rl) 0
                 (offset_table rl) ltac:(cbn [length]; lia) Hsc (length m) None [])
        by (lia || reflexivity).
      reflexivity.
Qed.

Lemma inline_scan_ends_exactly_witness :
  (exists e, index_entry_at_byte (mkRevlog inline_idx None false [0; 67] false) 67 (Some 1) = Ok e /\
    byte_offset e + comp_len (chunk e) + 64 = 133) /\
  open "data/f.i" (fs_one "data/f.i" (removelast inline_idx)) = Panic.
Proof.
  destruct inline_scan_ends_exactly as [H [H2 _]]. split.
  - destruct (H "data/f.i"%string (fs_one "data/f.i" inline_idx)
                (mkRevlog inline_idx None false [0; 67] false)
                ltac:(vm_compute; reflexivity) eq_refl) as [_ [e [He Hend]]].
    exists e. split; [exact He|]. rewrite Hend. vm_compute. reflexivity.
  - exact (H2 "data/f.i"%string (fs_one "data/f.i" inline_idx)
             (mkRevlog inline_idx None false [0; 67] false)
             (fs_one "data/f.i" (removelast inline_idx))
             ltac:(vm_compute; reflexivity) eq_refl ltac:(vm_compute; reflexivity)).
Defined.

(** [index i] reports revno [i]. *)
Lemma index_revno rl i e : index rl i = Ok e -> revno e = i.
Proof.
  unfold index. intros H.
  destruct (inline rl).
  - destruct (negb (0 <=? i)); [discriminate|].
    destruct (negb (i <? as_i32 (Z.of_nat (length (offset_table rl))))); [discriminate|].
    apply index_entry_at_byte_ok in H. tauto.
  - apply index_entry_at_byte_ok in H. tauto.
Qed.

Lemma chain_wf_rev rl n k : chain_wf rl n = true -> (k < n)%nat -> rev_chain_ok rl (Z.of_nat k) = true.
Proof.
  unfold chain_wf. rewrite forallb_forall. intros H Hk. apply H.
  apply in_seq. lia.
Qed.

Lemma chain_wf_le rl n m : chain_wf rl n = true -> (m <= n)%nat -> chain_wf rl m = true.
Proof.
  intros H Hm. unfold chain_wf. apply forallb_forall. intros k Hk.
  apply in_seq in Hk. apply (chain_wf_rev rl n); [exact H|lia].
Qed.

(** [collect_chain] at fuel above [r + 1] walks a backward chain from
    revision [r] to its end. *)
Lemma collect_chain_backward rl n :
  forall E fuel, chain_wf rl (S n) = true -> index rl (Z.of_nat n) = Ok E ->
    (n + 2 <= fuel)%nat ->
    exists ds, collect_chain fuel rl (Some E) = Ok ds /\ chain_of rl E ds.
Proof.
  induction n as [n IH] using (well_founded_induction lt_wf).
  intros E fuel Hwf HE Hf.
  destruct fuel as [|f]; [lia|].
  pose proof (index_revno _ _ _ HE) as Hr.
  pose proof (chain_wf_rev rl (S n) n Hwf ltac:(lia)) as Hok.
  unfold rev_chain_ok in Hok. rewrite HE in Hok.
  cbn [collect_chain]. unfold delta_chain_next.
  destruct ((entry_base_rev rl E =? -1) || (entry_base_rev rl E =? revno E)) eqn:Hstop.
  - destruct f as [|f']; [lia|].
    exists [data E]. split; [reflexivity|].
    apply chain_last. apply orb_true_iff in Hstop as [Hs|Hs]; apply Z.eqb_eq in Hs; auto.
  - apply orb_false_iff in Hstop as [Hs1 Hs2].
    apply Z.eqb_neq in Hs1. apply Z.eqb_neq in Hs2.
    rewrite Hr in Hs2.
    set (b := entry_base_rev rl E) in *.
    destruct (b =? -1) eqn:Hb1; [apply Z.eqb_eq in Hb1; contradiction|].
    destruct (b =? Z.of_nat n) eqn:Hb2; [apply Z.eqb_eq in Hb2; contradiction|].
    cbn [orb] in Hok.
    destruct (0 <=? b) eqn:Hb3; [|discriminate].
    destruct (b <? Z.of_nat n) eqn:Hb4; [|discriminate].
    apply Z.leb_le in Hb3. apply Z.ltb_lt in Hb4. cbn [andb] in Hok.
    destruct (index rl b) as [e'| | |] eqn:He'; try discriminate.
    destruct (IH (Z.to_nat b) ltac:(lia) e' f) as (ds & Hds & Hch).
    + apply (chain_wf_le rl (S n)); [exact Hwf|lia].
    + rewrite Z2Nat.id by lia. exact He'.
    + lia.
    + exists (data E :: ds). rewrite Hds. split; [reflexivity|].
      apply (chain_step rl E e'); auto.
      rewrite Hr. exact Hs2.
Qed.

(** The delta chain of revision 0 of [sep_rl REVLOGNG 1 0], whose records
    name each other as delta bases, never ends. *)
Lemma cyclic_chain_diverges :
  exists e0, index (sep_rl REVLOGNG 1 0) 0 = Ok e0 /\
    forall n, collect_chain n (sep_rl REVLOGNG 1 0) (Some e0) = Diverge.
Proof.
  set (rl := sep_rl REVLOGNG 1 0).
  destruct (index rl 0) as [e0| | |] eqn:H0; try (vm_compute in H0; discriminate).
  destruct (index rl 1) as [e1| | |] eqn:H1; try (vm_compute in H1; discriminate).
  exists e0. split; [reflexivity|].
  assert (N0 : delta_chain_next rl (Some e0) = Ok (Some (data e0, Some e1))).
  { pose proof H0 as H0'. vm_compute in H0'. apply ok_inj in H0'.
    assert (Hb : entry_base_rev rl e0 = 1 /\ revno e0 = 0)
      by (subst e0; split; vm_compute; reflexivity).
    unfold delta_chain_next. destruct Hb as [-> ->].
    change ((1 =? -1) || (1 =? 0)) with false. rewrite H1. reflexivity. }
  assert (N1 : delta_chain_next rl (Some e1) = Ok (Some (data e1, Some e0))).
  { pose proof H1 as H1'. vm_compute in H1'. apply ok_inj in H1'.
    assert (Hb : entry_base_rev rl e1 = 0 /\ revno e1 = 1)
      by (subst e1; split; vm_compute; reflexivity).
    unfold delta_chain_next. destruct Hb as [-> ->].
    change ((0 =? -1) || (0 =? 1)) with false. rewrite H0. reflexivity. }
  assert (Hboth : forall n, collect_chain n rl (Some e0) = Diverge /\
                            collect_chain n rl (Some e1) = Diverge).
  { induction n as [|n [IH0 IH1]]; [split; reflexivity|].
    cbn [collect_chain]. rewrite N0, N1. cbn [bind]. rewrite IH0, IH1. split; reflexivity. }
  intros n. apply Hboth.
Qed.

(** C4 refuted: [sep_rl REVLOGNG 1 0] opens, yet revisions 0 and 1 name
    each other as delta bases, so the delta chain of revision 0 never
    ends: every bounded run of [DeltaChain::next] is still going. *)
Lemma delta_chain_cycles :
  open "data/f.i" (fs_sep REVLOGNG 1 0) = Ok (sep_rl REVLOGNG 1 0) /\
  exists e0, index (sep_rl REVLOGNG 1 0) 0 = Ok e0 /\
    forall n, collect_chain n (sep_rl REVLOGNG 1 0) (Some e0) = Diverge.
Proof. split; [vm_compute; reflexivity|exact cyclic_chain_diverges]. Qed.

(** C4 as amended: [effective_base_rev] is -1 in the general-delta scheme
    when [record.base_rev] equals the revno, and [record.base_rev]
    otherwise (also -1 when that field is -1); when every revision up to
    [r] has effective base -1, itself, or an earlier revision that [index]
    finds, [delta_chain] of revision [r] yields the payloads of the finite
    chain that steps to the effective base until it is -1 or the current
    revno; the code does not check this, and a revlog whose records name
    each other as bases opens and gives a chain that never ends; a base
    that [index] rejects (an error or a panic) makes [next] panic through
    [unwrap], and with it the whole walk. *)
Theorem delta_chain_walk :
  (forall rl e, entry_base_rev rl e =
     if generaldelta rl && (chunk_base_rev (chunk e) =? revno e) then -1
     else chunk_base_rev (chunk e)) /\
  (forall rl r E, 0 <= r -> chain_wf rl (S (Z.to_nat r)) = true -> index rl r = Ok E ->
     exists ds, collect_chain (Z.to_nat r + 2) rl (Some E) = Ok ds /\ chain_of rl E ds) /\
  (open "data/f.i" (fs_sep REVLOGNG 1 0) = Ok (sep_rl REVLOGNG 1 0) /\
   exists e0, index (sep_rl REVLOGNG 1 0) 0 = Ok e0 /\
     forall n, collect_chain n (sep_rl REVLOGNG 1 0) (Some e0) = Diverge) /\
  (forall rl c n, entry_base_rev rl c <> -1 -> entry_base_rev rl c <> revno c ->
     (exists m, index rl (entry_base_rev rl c) = Err m) \/
       index rl (entry_base_rev rl c) = Panic ->
     delta_chain_next rl (Some c) = Panic /\ collect_chain (S n) rl (Some c) = Panic).
Proof.
  split; [|split; [|split]].
  - intros rl e. unfold entry_base_rev. rewrite andb_comm. reflexivity.
  - intros rl r E Hr Hwf HE.
    apply (collect_chain_backward rl (Z.to_nat r)); [exact Hwf| |lia].
    rewrite Z2Nat.id by lia. exact HE.
  - split; [vm_compute; reflexivity|exact cyclic_chain_diverges].
  - intros rl c n Hb1 Hb2 Hix.
    assert (Hn : delta_chain_next rl (Some c) = Panic).
    { unfold delta_chain_next.
      replace ((entry_base_rev rl c =? -1) || (entry_base_rev rl c =? revno c))
        with false
        by (symmetry; apply orb_false_iff; split; apply Z.eqb_neq; assumption).
      destruct Hix as [[m ->]| ->]; reflexivity. }
    split; [exact Hn|]. cbn [collect_chain]. rewrite Hn. reflexivity.
Qed.

Lemma delta_chain_walk_witness :
  (exists E ds, index (sep_rl (REVLOGNG + REVLOGGENERALDELTA) 0 0) 1 = Ok E /\
    collect_chain 3 (sep_rl (REVLOGNG + REVLOGGENERALDELTA) 0 0) (Some E) = Ok ds /\
    ds = [[Byte.x75; Byte.x43]; [Byte.x75; Byte.x41; Byte.x42]]) /\
  (open "data/f.i" (fs_sep REVLOGNG 5 0) = Ok (sep_rl REVLOGNG 5 0) /\
   exists E, index (sep_rl REVLOGNG 5 0) 0 = Ok E /\
     collect_chain 3 (sep_rl REVLOGNG 5 0) (Some E) = Panic).
Proof.
  split.
  2:{ split; [vm_compute; reflexivity|].
      destruct (index (sep_rl REVLOGNG 5 0) 0) as [E| | |] eqn:HE;
        try (vm_compute in HE; discriminate).
      exists E. split; [reflexivity|].
      vm_compute in HE. apply ok_inj in HE. subst E.
      destruct delta_chain_walk as [_ [_ [_ H]]].
      apply (H (sep_rl REVLOGNG 5 0) _ 2%nat);
        [vm_compute; discriminate|vm_compute; discriminate|right; vm_compute; reflexivity]. }
  destruct delta_chain_walk as [_ [H _]].
  destruct (index (sep_rl (REVLOGNG + REVLOGGENERALDELTA) 0 0) 1) as [E| | |] eqn:HE;
    try (vm_compute in HE; discriminate).
  destruct (H (sep_rl (REVLOGNG + REVLOGGENERALDELTA) 0 0) 1 E
              ltac:(lia) ltac:(vm_compute; reflexivity) HE) as (ds & Hds & _).
  exists E, ds. split; [reflexivity|]. split; [exact Hds|].
  vm_compute in HE. apply ok_inj in HE. subst E.
  vm_compute in Hds. apply ok_inj in Hds. subst ds. reflexivity.
Defined.

End RevlogFacts.

(** * Patch engine: further properties *)

Module PatchExtra.
Import Patch PatchFacts.

(** [decode_header] reads back three big-endian [u32] values written in
    front of any rest of the stream, and leaves the cursor on that rest. *)
Theorem decode_header_roundtrip a b c rest :
  (0 <= a < 2 ^ 32)%Z -> (0 <= b < 2 ^ 32)%Z -> (0 <= c < 2 ^ 32)%Z ->
  decode_header (be_split 4 a ++ be_split 4 b ++ be_split 4 c ++ rest) =
    Some ((Z.to_nat a, Z.to_nat b, Z.to_nat c), rest).
Proof.
  exact (decode_header_be_split a b c rest).
Qed.

Lemma decode_header_roundtrip_witness :
  decode_header (be_split 4 42 ++ be_split 4 43 ++ be_split 4 44 ++ [Byte.x01]) =
    Some ((42, 43, 44), [Byte.x01]).
Proof.
  exact (decode_header_roundtrip 42 43 44 [Byte.x01]
           ltac:(lia) ltac:(lia) ltac:(lia)).
Defined.

(** A stream of one hunk [(a, b, data)] with [a] and [b] inside the
    buffer keeps [buf[..a]], inserts the data and resumes at [buf[b..]];
    [a > b] is not rejected, the bytes between [b] and [a] then appear
    twice. *)
Theorem apply_single_hunk base (a b : nat) d :
  a <= length base -> b <= length base ->
  (Z.of_nat a < 2 ^ 32)%Z -> (Z.of_nat b < 2 ^ 32)%Z -> (Z.of_nat (length d) < 2 ^ 32)%Z ->
  apply base [enc_hunk (Z.of_nat a) (Z.of_nat b) d] = Some (firstn a base ++ d ++ skipn b base).
Proof. exact (apply_one_hunk base a b d). Qed.

Lemma apply_single_hunk_witness :
  apply (list_byte_of_string "hello") [enc_hunk 1 3 (list_byte_of_string "ipp")] =
    Some (list_byte_of_string "hipplo").
Proof.
  exact (apply_single_hunk (list_byte_of_string "hello") 1 3 (list_byte_of_string "ipp")
           ltac:(cbn; lia) ltac:(cbn; lia) ltac:(lia) ltac:(lia) ltac:(cbn; lia)).
Defined.

End PatchExtra.

(** * Revlog reader: further properties *)

Module RevlogExtra.
Import Revlog RevlogFacts.
Open Scope Z_scope.

Lemma extract_value_in m size i :
  0 <= i -> i + size <= Z.of_nat (length m) ->
  extract_value m size i = Ok (firstn (Z.to_nat size) (skipn (Z.to_nat i) m)).
Proof.
  intros H0 H1. unfold extract_value.
  destruct (Z.leb_spec 0 i); [|lia]. destruct (Z.leb_spec (i + size) (Z.of_nat (length m))); [|lia].
  reflexivity.
Qed.

(** What the checks of [index_entry_at_byte] guarantee of an entry. *)
Lemma entry_checks rl off ro e :
  index_entry_at_byte rl off ro = Ok e ->
  length (chunk e) = 64%nat /\
  forallb (fun b => Byte.eqb b Byte.x00) (skipn 52 (chunk e)) = true /\
  Z.of_nat (length (data e)) = comp_len (chunk e) /\
  match data e with [] => True | d0 :: _ => frame_ok d0 = true end.
Proof.
  unfold index_entry_at_byte.
  destruct (negb (inline rl) && negb (Z.rem off 64 =? 0)); [discriminate|].
  destruct (extract_value (rl_index rl) 64 off) as [c| | |] eqn:Hv;
    cbn [bind]; try discriminate.
  apply extract_value_ok in Hv as (H0 & H64 & Hc).
  pose proof (i32_from_be_lower (field c 8 4)) as Hlow.
  assert (Hlc : length c = 64%nat).
  { rewrite Hc. apply firstn_length_le. rewrite length_skipn. lia. }
  destruct (match rl_data rl with
            | Some dfile => extract_slice dfile (if off =? 0 then 0 else chunk_offset c)
                              (usize_of_i32 (comp_len c))
            | None => extract_slice (rl_index rl) (off + 64) (usize_of_i32 (comp_len c))
            end) as [d| | |] eqn:Hs; cbn [bind]; try discriminate.
  assert (Hdl : Z.of_nat (length d) = comp_len c).
  { destruct (rl_data rl) as [dfile|];
      apply extract_slice_ok in Hs as (Hi0 & Hl & Hend & Hdv);
      apply usize_of_i32_small in Hl as [Hu Hcl]; try exact Hlow;
      rewrite Hu in Hdv, Hend; rewrite Hdv, firstn_length_le; try lia;
      rewrite length_skipn; lia. }
  destruct (match ro with Some x => Ok x | None => revno_from_offset rl off end)
    as [r| | |]; cbn [bind]; try discriminate.
  intros H. apply entry_tail_ok in H as (-> & Hz & Hf). cbn [chunk data].
  split; [exact Hlc|]. split; [exact Hz|]. split; [exact Hdl|].
  destruct d as [|d0 d']; [exact I|]. exact (Hf d0 d' eq_refl).
Qed.

Lemma index_entry_of_index rl i e :
  index rl i = Ok e -> exists off, index_entry_at_byte rl off (Some i) = Ok e.
Proof.
  unfold index. destruct (inline rl).
  - destruct (negb (0 <=? i)); [discriminate|].
    destruct (negb (i <? as_i32 (Z.of_nat (length (offset_table rl))))); [discriminate|].
    intros H. eexists. exact H.
  - intros H. eexists. exact H.
Qed.

Lemma skipn_cons_nth {A} (s : list A) mid t rest :
  skipn mid s = t :: rest ->
  nth_error s mid = Some t /\ forall j, nth_error s (mid + S j) = nth_error rest j.
Proof.
  revert s. induction mid as [|mid IH]; intros s H.
  - cbn in H. subst s. split; [reflexivity|]. intros j. reflexivity.
  - destruct s as [|x s]; [discriminate|]. cbn in H. apply IH in H as [H1 H2].
    split; [exact H1|]. intros j. cbn. apply H2.
Qed.

Lemma nth_error_firstn_some {A} (s : list A) n j x :
  nth_error (firstn n s) j = Some x -> nth_error s j = Some x.
Proof.
  revert s j. induction n as [|n IH]; intros s j H.
  - destruct j; cbn in H; discriminate.
  - destruct s as [|y s]; [destruct j; cbn in H; discriminate|].
    destruct j as [|j]; cbn in *; [exact H|apply IH; exact H].
Qed.

(** The standard library's loop only answers [Ok(k)] at a slot holding
    the key, sorted or not. *)
Lemma binary_search_loop_sound f : forall base s x k,
  binary_search_loop f base s x = inl k ->
  exists j, k = (base + j)%nat /\ nth_error s j = Some x.
Proof.
  induction f as [|f IH]; intros base s x k H; cbn [binary_search_loop] in H;
    [discriminate|].
  destruct (skipn (Nat.div2 (length s)) s) as [|t rest] eqn:Hs; [discriminate|].
  apply skipn_cons_nth in Hs as [Hm Hr].
  revert H. destruct (Z.compare t x) eqn:Ec; intros H.
  - apply Z.compare_eq in Ec. subst t. injection H as <-.
    exists (Nat.div2 (length s)). split; [reflexivity|exact Hm].
  - apply IH in H as (j & -> & Hj).
    exists (Nat.div2 (length s) + S j)%nat. split; [lia|]. rewrite Hr. exact Hj.
  - apply IH in H as (j & -> & Hj).
    exists j. split; [reflexivity|]. eapply nth_error_firstn_some. exact Hj.
Qed.

Lemma iter_collect_separate rl n : forall p es (m : nat),
  inline rl = false -> incomplete rl = false ->
  byte_offset p = 64 * Z.of_nat m -> iter_collect n rl (Some p) = Ok es ->
  64 * Z.of_nat (m + 1 + length es) = Z.of_nat (length (rl_index rl)) /\
  forall j e, nth_error es j = Some e ->
    byte_offset e = 64 * Z.of_nat (m + 1 + j) /\ revno e = as_i32 (Z.of_nat (m + 1 + j)).
Proof.
  induction n as [|n IH]; intros p es m Hin Hc Hp H; [discriminate|].
  cbn [iter_collect] in H. unfold iter_next in H. rewrite Hin in H.
  cbv beta iota zeta in H.
  destruct (Z.eqb_spec (byte_offset p + 64) (Z.of_nat (length (rl_index rl)))) as [E|E].
  - apply ok_inj in H. subst es. split; [cbn [length]; lia|].
    intros j e Hj. destruct j; discriminate.
  - destruct (index_entry_at_byte rl (byte_offset p + 64) None) as [e'| | |] eqn:He;
      cbn [bind] in H; try discriminate.
    destruct (iter_collect n rl (Some e')) as [es'| | |] eqn:Hr;
      cbn [bind] in H; try discriminate.
    apply ok_inj in H. subst es.
    pose proof He as He2.
    apply index_entry_at_byte_ok in He2 as (Hoff & _ & _ & _ & _ & _ & Hrev).
    unfold revno_from_offset in Hrev. rewrite Hc, Hin in Hrev.
    cbv beta iota in Hrev. apply ok_inj in Hrev.
    assert (Hq : Z.quot (byte_offset p + 64) 64 = Z.of_nat (S m)).
    { rewrite Z.quot_div_nonneg by lia. rewrite Hp.
      replace (64 * Z.of_nat m + 64) with ((Z.of_nat m + 1) * 64) by lia.
      rewrite Z.div_mul by lia. lia. }
    destruct (IH e' es' (S m) Hin Hc ltac:(lia) Hr) as [IH1 IH2].
    split; [cbn [length]; lia|].
    intros [|j] e0 Hj; cbn in Hj.
    + injection Hj as <-. split; [lia|]. rewrite <- Hrev, Hq. f_equal. lia.
    + destruct (IH2 j e0 Hj) as [A B].
      split; [rewrite A; f_equal; lia|rewrite B; f_equal; f_equal; lia].
Qed.

(** Every entry [index_entry_at_byte] returns passed its sanity checks:
    its record is 64 bytes whose last 12 are zero, its payload is exactly
    [comp_len] bytes, and a nonempty payload starts with ['\0'], ['u']
    or ['x']. *)
Theorem index_entry_checks rl off ro e :
  index_entry_at_byte rl off ro = Ok e ->
  length (chunk e) = 64%nat /\
  forallb (fun b => Byte.eqb b Byte.x00) (skipn 52 (chunk e)) = true /\
  Z.of_nat (length (data e)) = comp_len (chunk e) /\
  match data e with [] => True | d0 :: _ => frame_ok d0 = true end.
Proof. apply entry_checks. Qed.

Lemma index_entry_checks_witness :
  exists e, index_entry_at_byte (sep_rl REVLOGNG 0 0) 64 None = Ok e /\
    length (data e) = 2%nat.
Proof.
  destruct (index_entry_at_byte (sep_rl REVLOGNG 0 0) 64 None) as [e| | |] eqn:He;
    try (vm_compute in He; discriminate).
  exists e. split; [reflexivity|].
  destruct (index_entry_checks _ _ _ _ He) as (_ & _ & Hl & _).
  vm_compute in He. apply ok_inj in He. subst e. vm_compute. reflexivity.
Defined.

(** In separate mode, [index(i)] succeeds only for [0 <= i < len()], and
    then returns the record at byte [64 * i] of the index file, with
    revno [i]. *)
Theorem index_separate_entry rl i e :
  inline rl = false -> index rl i = Ok e ->
  0 <= i < len rl /\ byte_offset e = 64 * i /\ revno e = i /\
  chunk e = firstn 64 (skipn (Z.to_nat (64 * i)) (rl_index rl)).
Proof.
  intros Hin H. unfold index in H. rewrite Hin in H.
  apply index_entry_at_byte_ok in H as (Hoff & H0 & Hb & Hc & _ & _ & Hr).
  unfold len. rewrite Hin. cbv beta iota. rewrite Z.quot_div_nonneg by lia.
  assert (i + 1 <= Z.of_nat (length (rl_index rl)) / 64) by (apply Z.div_le_lower_bound; lia).
  split; [lia|]. split; [exact Hoff|]. split; [exact Hr|exact Hc].
Qed.

Lemma index_separate_entry_witness :
  exists e, index (sep_rl REVLOGNG 0 0) 1 = Ok e /\ byte_offset e = 64 /\ revno e = 1.
Proof.
  destruct (index (sep_rl REVLOGNG 0 0) 1) as [e| | |] eqn:He;
    try (vm_compute in He; discriminate).
  destruct (index_separate_entry (sep_rl REVLOGNG 0 0) 1 e eq_refl He) as (_ & Ho & Hr & _).
  exists e. split; [reflexivity|]. split; [exact Ho|exact Hr].
Defined.

(** [index(i)] out of range: in separate mode it panics (the bounds
    assertion of [extract_value]); in inline mode it returns an error. *)
Theorem index_out_of_range rl i :
  (inline rl = false -> i < 0 \/ len rl <= i -> index rl i = Panic) /\
  (inline rl = true -> Z.of_nat (length (offset_table rl)) < 2 ^ 31 ->
   i < 0 \/ Z.of_nat (length (offset_table rl)) <= i -> exists m, index rl i = Err m).
Proof.
  split.
  - intros Hin Hi. unfold index, index_entry_at_byte. rewrite Hin.
    replace (Z.rem (64 * i) 64 =? 0) with true
      by (symmetry; apply Z.eqb_eq; rewrite Z.mul_comm; apply Z.rem_mul; lia).
    cbn [negb andb].
    unfold extract_value.
    destruct (Z.leb_spec 0 (64 * i)); cbn [negb]; [|reflexivity].
    destruct (Z.leb_spec (64 * i + 64) (Z.of_nat (length (rl_index rl))));
      cbn [negb]; [|reflexivity].
    exfalso. unfold len in Hi. rewrite Hin in Hi. cbv beta iota in Hi.
    rewrite Z.quot_div_nonneg in Hi by lia.
    assert (i + 1 <= Z.of_nat (length (rl_index rl)) / 64) by (apply Z.div_le_lower_bound; lia).
    lia.
  - intros Hin Hl Hi. unfold index. rewrite Hin. rewrite as_i32_small by lia.
    destruct (Z.leb_spec 0 i); cbn [negb]; [|eexists; reflexivity].
    destruct (Z.ltb_spec i (Z.of_nat (length (offset_table rl)))); cbn [negb];
      [lia|eexists; reflexivity].
Qed.

Lemma index_out_of_range_witness :
  index (sep_rl REVLOGNG 0 0) 2 = Panic /\
  exists m, index (mkRevlog inline_idx None false [0; 67] false) 2 = Err m.
Proof.
  destruct (index_out_of_range (sep_rl REVLOGNG 0 0) 2) as [H1 _].
  destruct (index_out_of_range (mkRevlog inline_idx None false [0; 67] false) 2) as [_ H2].
  split.
  - apply H1; [reflexivity|right; vm_compute; discriminate].
  - apply H2; [reflexivity|cbn; lia|right; cbn; lia].
Defined.

(** What a successful [open] has checked and built: the path ends in
    [.i], the index is the file's contents and holds at least one record,
    the first record's flags have the NG bit, [inline] and [generaldelta]
    are their bits 16 and 17, a separate revlog's data is the [.d] file,
    and the revlog is complete, so calling [init] again panics. *)
Theorem open_ok_shape path fs rl :
  open path fs = Ok rl ->
  ends_with path ".i" = true /\ fs path = Some (rl_index rl) /\
  64 <= Z.of_nat (length (rl_index rl)) /\
  Z.land (Z.shiftr (offset_flags (firstn 64 (rl_index rl))) 32) REVLOGNG <> 0 /\
  inline rl =
    negb (Z.land (Z.shiftr (offset_flags (firstn 64 (rl_index rl))) 32)
            REVLOGNGINLINEDATA =? 0) /\
  generaldelta rl =
    negb (Z.land (Z.shiftr (offset_flags (firstn 64 (rl_index rl))) 32)
            REVLOGGENERALDELTA =? 0) /\
  (inline rl = false ->
     fs (substring 0 (String.length path - 2) path ++ ".d")%string = rl_data rl) /\
  incomplete rl = false /\ init rl = Panic.
Proof.
  intros H. unfold open in H.
  destruct (ends_with path ".i") eqn:He; cbn [negb] in H; [|discriminate].
  destruct (map_file fs path) as [idx| | |] eqn:Hf; cbn [bind] in H; try discriminate.
  apply map_file_ok in Hf as [Hf _].
  destruct (extract_value idx 64 0) as [fc| | |] eqn:Hv; cbn [bind] in H; try discriminate.
  apply extract_value_ok in Hv as (_ & H64 & Hc).
  change (Z.to_nat 64) with 64%nat in Hc. change (Z.to_nat 0) with 0%nat in Hc.
  cbn [skipn] in Hc. subst fc.
  cbv zeta in H.
  destruct (Z.eqb_spec (Z.land (Z.shiftr (offset_flags (firstn 64 idx)) 32) REVLOGNG) 0)
    as [Hng|Hng]; [discriminate|].
  destruct (negb (Z.land (Z.shiftr (offset_flags (firstn 64 idx)) 32) REVLOGNGINLINEDATA =? 0))
    eqn:Hil.
  - cbn [bind] in H. unfold init in H. cbn [incomplete negb inline rl_data rl_index] in H.
    destruct (scan (S (length idx))
                (mkRevlog idx None
                   (negb (Z.land (Z.shiftr (offset_flags (firstn 64 idx)) 32)
                            REVLOGGENERALDELTA =? 0)) [] true) None [])
      as [tbl| | |]; cbn [bind] in H; try discriminate.
    apply ok_inj in H. subst rl.
    cbn [rl_index rl_data incomplete generaldelta inline].
    split; [reflexivity|]. split; [exact Hf|]. split; [lia|]. split; [exact Hng|].
    split; [symmetry; exact Hil|]. split; [reflexivity|].
    split; [discriminate|]. split; reflexivity.
  - destruct (map_file fs (substring 0 (String.length path - 2) path ++ ".d")%string)
      as [d| | |] eqn:Hd; cbn [bind] in H; try discriminate.
    unfold init in H. cbn [incomplete negb inline rl_data rl_index] in H.
    apply ok_inj in H. subst rl.
    cbn [rl_index rl_data incomplete generaldelta inline].
    split; [reflexivity|]. split; [exact Hf|]. split; [lia|]. split; [exact Hng|].
    split; [symmetry; exact Hil|]. split; [reflexivity|].
    split.
    + intros _. apply map_file_ok in Hd as [Hd _]. rewrite Hd. reflexivity.
    + split; reflexivity.
Qed.

Lemma open_ok_shape_witness :
  open "data/f.i" (fs_sep REVLOGNG 0 0) = Ok (sep_rl REVLOGNG 0 0) /\
  fs_sep REVLOGNG 0 0 "data/f.d" = rl_data (sep_rl REVLOGNG 0 0).
Proof.
  assert (Ho : open "data/f.i" (fs_sep REVLOGNG 0 0) = Ok (sep_rl REVLOGNG 0 0))
    by (vm_compute; reflexivity).
  split; [exact Ho|].
  destruct (open_ok_shape _ _ _ Ho) as (_ & _ & _ & _ & _ & _ & Hd & _).
  exact (Hd eq_refl).
Defined.

(** In separate mode [open] reads only the first record: once its flags
    have the NG bit and not the inline bit and the [.d] file exists and is
    nonempty, the revlog opens, whatever the rest of the index holds. *)
Theorem open_separate_accepts path fs idx d :
  ends_with path ".i" = true -> fs path = Some idx -> 64 <= Z.of_nat (length idx) ->
  Z.land (Z.shiftr (offset_flags (firstn 64 idx)) 32) REVLOGNG <> 0 ->
  Z.land (Z.shiftr (offset_flags (firstn 64 idx)) 32) REVLOGNGINLINEDATA = 0 ->
  fs (substring 0 (String.length path - 2) path ++ ".d")%string = Some d -> d <> [] ->
  open path fs =
    Ok (mkRevlog idx (Some d)
          (negb (Z.land (Z.shiftr (offset_flags (firstn 64 idx)) 32)
                   REVLOGGENERALDELTA =? 0)) [] false).
Proof.
  intros He Hf H64 Hng Hil Hd Hdne. unfold open. rewrite He. cbn [negb].
  rewrite (map_file_some fs path idx Hf) by (intros E; rewrite E in H64; cbn in H64; lia).
  cbn [bind].
  rewrite extract_value_in by lia. cbn [bind].
  change (firstn (Z.to_nat 64) (skipn (Z.to_nat 0) idx)) with (firstn 64 idx).
  cbv zeta.
  destruct (Z.eqb_spec (Z.land (Z.shiftr (offset_flags (firstn 64 idx)) 32) REVLOGNG) 0);
    [contradiction|].
  rewrite Hil. cbn [Z.eqb negb]. rewrite (map_file_some _ _ d Hd Hdne). cbn [bind].
  unfold init. cbn [incomplete negb inline rl_data rl_index generaldelta offset_table].
  reflexivity.
Qed.

Lemma open_separate_accepts_witness :
  open "data/f.i" (fs_sep REVLOGNG 0 0) = Ok (sep_rl REVLOGNG 0 0).
Proof.
  exact (open_separate_accepts "data/f.i" (fs_sep REVLOGNG 0 0) (sep_idx REVLOGNG 0 0)
           sep_data eq_refl eq_refl ltac:(vm_compute; discriminate)
           ltac:(vm_compute; discriminate) ltac:(vm_compute; reflexivity) eq_refl
           ltac:(discriminate)).
Defined.

(** A nonempty index file shorter than one record makes [open] panic (the
    bounds assertion of [extract_value]) instead of returning an error;
    an empty one is an error of the mapping. *)
Theorem open_short_index_panics path fs idx :
  ends_with path ".i" = true -> fs path = Some idx ->
  (0 < Z.of_nat (length idx) < 64 -> open path fs = Panic) /\
  (idx = [] -> exists m, open path fs = Err m).
Proof.
  intros He Hf. split.
  2:{ intros ->. unfold open. rewrite He. cbn [negb]. unfold map_file. rewrite Hf.
      eexists. reflexivity. }
  intros Hl. unfold open. rewrite He. cbn [negb].
  rewrite (map_file_some fs path idx Hf) by (intros E; rewrite E in Hl; cbn in Hl; lia).
  cbn [bind].
  unfold extract_value.
  destruct (Z.leb_spec 0 0); [|lia].
  destruct (Z.leb_spec (0 + 64) (Z.of_nat (length idx))); [lia|].
  reflexivity.
Qed.

Lemma open_short_index_panics_witness :
  open "data/f.i" (fs_one "data/f.i" (firstn 63 (sep_idx REVLOGNG 0 0))) = Panic.
Proof.
  destruct (open_short_index_panics "data/f.i"
              (fs_one "data/f.i" (firstn 63 (sep_idx REVLOGNG 0 0)))
              (firstn 63 (sep_idx REVLOGNG 0 0)) eq_refl eq_refl) as [H _].
  apply H. vm_compute. split; reflexivity.
Defined.

(** In an opened inline revlog, [revno_from_offset] only returns a revno
    [k] whose jump-table slot holds the offset (sorted table or not), and
    an offset missing from the table is an error. *)
Theorem revno_from_offset_sound rl off :
  incomplete rl = false -> inline rl = true ->
  (forall r, revno_from_offset rl off = Ok r ->
     exists k, nth_error (offset_table rl) k = Some off /\ r = as_i32 (Z.of_nat k)) /\
  (~ In off (offset_table rl) -> exists m, revno_from_offset rl off = Err m).
Proof.
  intros Hc Hin. unfold revno_from_offset. rewrite Hc, Hin. cbv beta iota.
  unfold binary_search.
  destruct (binary_search_loop (S (length (offset_table rl))) 0 (offset_table rl) off)
    as [k|k] eqn:Hb.
  - apply binary_search_loop_sound in Hb as (j & -> & Hj).
    split.
    + intros r H. apply ok_inj in H. exists j. split; [exact Hj|]. subst r. reflexivity.
    + intros Hn. exfalso. apply Hn. eapply nth_error_In. exact Hj.
  - split; [intros r H; discriminate|]. intros _. eexists. reflexivity.
Qed.

Lemma revno_from_offset_sound_witness :
  exists m, revno_from_offset (mkRevlog inline_idx None false [0; 67] false) 5 = Err m.
Proof.
  destruct (revno_from_offset_sound (mkRevlog inline_idx None false [0; 67] false) 5
              eq_refl eq_refl) as [_ H].
  apply H. cbn. intros [E|[E|[]]]; discriminate.
Defined.

(** Iterating a complete separate revlog to its end visits the records at
    byte offsets [0, 64, 128, ...] in order, entry [j] with revno [j]
    (as an [i32]), and the index file is exactly [64] times the number
    of entries long. *)
Theorem iter_separate_offsets rl n es :
  inline rl = false -> incomplete rl = false -> iter_collect n rl None = Ok es ->
  64 * Z.of_nat (length es) = Z.of_nat (length (rl_index rl)) /\
  forall j e, nth_error es j = Some e ->
    byte_offset e = 64 * Z.of_nat j /\ revno e = as_i32 (Z.of_nat j).
Proof.
  intros Hin Hc H. destruct n as [|n]; [discriminate|].
  cbn [iter_collect iter_next] in H.
  destruct (index_entry_at_byte rl 0 None) as [e0| | |] eqn:He0;
    cbn [bind] in H; try discriminate.
  destruct (iter_collect n rl (Some e0)) as [es'| | |] eqn:Hr;
    cbn [bind] in H; try discriminate.
  apply ok_inj in H. subst es.
  pose proof He0 as H0.
  apply index_entry_at_byte_ok in H0 as (Hoff & _ & _ & _ & _ & _ & Hrev).
  unfold revno_from_offset in Hrev. rewrite Hc, Hin in Hrev.
  cbv beta iota in Hrev. apply ok_inj in Hrev.
  destruct (iter_collect_separate rl n e0 es' 0 Hin Hc ltac:(lia) Hr) as [A B].
  split; [cbn [length]; lia|].
  intros [|j] e Hj; cbn in Hj.
  - injection Hj as <-. split; [lia|]. rewrite <- Hrev. reflexivity.
  - destruct (B j e Hj) as [B1 B2].
    split; [rewrite B1; f_equal; lia|rewrite B2; f_equal; f_equal; lia].
Qed.

Lemma iter_separate_offsets_witness :
  exists es, iter_collect 5 (sep_rl REVLOGNG 0 0) None = Ok es /\
    64 * Z.of_nat (length es) = 128.
Proof.
  destruct (iter_collect 5 (sep_rl REVLOGNG 0 0) None) as [es| | |] eqn:H;
    try (vm_compute in H; discriminate).
  exists es. split; [reflexivity|].
  destruct (iter_separate_offsets (sep_rl REVLOGNG 0 0) 5 es eq_refl eq_refl H) as [Hl _].
  rewrite Hl. reflexivity.
Defined.

(** [parent_1_id] and [parent_2_id] always give 20 bytes: the null id for
    a -1 parent, otherwise the node id of the record [index] finds for
    that revision. *)
Theorem parent_id_ok rl p id :
  parent_id rl p = Ok id ->
  length id = 20%nat /\
  (p = -1 /\ id = NULL_ID \/
   p <> -1 /\ exists e, index rl p = Ok e /\ revno e = p /\ id = c_node_id (chunk e)).
Proof.
  unfold parent_id. destruct (Z.eqb_spec p (-1)) as [E|E].
  - intros H. apply ok_inj in H. subst id. split; [reflexivity|left; auto].
  - destruct (index rl p) as [e| | |] eqn:He; cbn [bind]; try discriminate.
    intros H. apply ok_inj in H. subst id.
    destruct (index_entry_of_index _ _ _ He) as [off Ho].
    destruct (entry_checks _ _ _ _ Ho) as [Hl _].
    split.
    + unfold c_node_id, field. rewrite firstn_length_le; [reflexivity|].
      rewrite length_skipn. lia.
    + right. split; [exact E|]. exists e. split; [reflexivity|].
      split; [exact (index_revno _ _ _ He)|reflexivity].
Qed.

Lemma parent_id_ok_witness :
  parent_id (sep_rl REVLOGNG 0 0) 0 = Ok (repeat Byte.x11 20) /\
  length (repeat Byte.x11 20) = 20%nat.
Proof.
  assert (H : parent_id (sep_rl REVLOGNG 0 0) 0 = Ok (repeat Byte.x11 20))
    by (vm_compute; reflexivity).
  split; [exact H|].
  destruct (parent_id_ok _ _ _ H) as [Hl _]. exact Hl.
Defined.

Lemma chunk_data_split {A} a : forall (L : list A) b,
  firstn a L ++ firstn b (skipn a L) = firstn (a + b) L.
Proof.
  induction a as [|a IH]; intros L b; [reflexivity|].
  destruct L as [|x L]; cbn; [rewrite firstn_nil; reflexivity|].
  f_equal. apply IH.
Qed.

Lemma window_split {A} (m : list A) a b :
  firstn a m ++ firstn b (skipn a m) ++ skipn (b + a) m = m.
Proof.
  rewrite <- skipn_skipn, firstn_skipn. apply firstn_skipn.
Qed.

(** One step of an inline scan: the record and payload of the entry at
    [off], followed by what lies past its payload, are the index from
    [off] on. *)
Lemma entry_tile rl off e :
  inline rl = true -> index_entry_at_byte rl off None = Ok e ->
  skipn (Z.to_nat off) (rl_index rl) =
    chunk e ++ data e ++
    skipn (Z.to_nat (byte_offset e + comp_len (chunk e) + 64)) (rl_index rl).
Proof.
  intros Hin H.
  apply index_entry_at_byte_ok in H as (Hoff & H0 & Hb & Hc & Hcl & Hd & _).
  unfold inline in Hin. destruct (rl_data rl); [discriminate|].
  destruct Hd as [Hend Hd].
  set (c := comp_len (chunk e)) in *.
  rewrite Hd, Hoff.
  replace (Z.to_nat (off + 64)) with (64 + Z.to_nat off)%nat by lia.
  replace (Z.to_nat (off + c + 64)) with (64 + Z.to_nat c + Z.to_nat off)%nat by lia.
  rewrite <- (skipn_skipn 64 (Z.to_nat off)), <- (skipn_skipn (64 + Z.to_nat c) (Z.to_nat off)).
  rewrite Hc.
  rewrite app_assoc, chunk_data_split. symmetry. apply firstn_skipn.
Qed.

Lemma iter_collect_inline rl n : forall p es,
  inline rl = true -> iter_collect n rl (Some p) = Ok es ->
  skipn (Z.to_nat (byte_offset p + comp_len (chunk p) + 64)) (rl_index rl) =
    concat (map (fun e => chunk e ++ data e) es).
Proof.
  induction n as [|n IH]; intros p es Hin H; [discriminate|].
  cbn [iter_collect] in H. unfold iter_next in H. rewrite Hin in H.
  unfold inline_advance in H. cbv zeta in H.
  destruct (Z.eqb_spec (byte_offset p + comp_len (chunk p) + 64)
              (Z.of_nat (length (rl_index rl)))) as [E|E].
  - cbv beta iota in H. apply ok_inj in H. subst es. cbn.
    rewrite E, Nat2Z.id. apply skipn_all.
  - destruct (index_entry_at_byte rl (byte_offset p + comp_len (chunk p) + 64) None)
      as [e'| | |] eqn:He; cbn [bind] in H; try discriminate.
    destruct (iter_collect n rl (Some e')) as [es'| | |] eqn:Hr;
      cbn [bind] in H; try discriminate.
    apply ok_inj in H. subst es.
    rewrite (entry_tile rl _ e' Hin He), (IH e' es' Hin Hr).
    cbn [map concat]. apply app_assoc.
Qed.

(** [extract_slice] with a length below [isize::MAX]: in bounds it returns
    exactly [len] bytes, the window at [index] that the bytes before and
    after it complete to the whole mapping; a negative index or a window
    past the end panics. *)
Theorem extract_slice_window m idx l :
  0 <= l < 2 ^ 63 ->
  (0 <= idx -> idx + l <= Z.of_nat (length m) ->
     exists v, extract_slice m idx l = Ok v /\ Z.of_nat (length v) = l /\
       firstn (Z.to_nat idx) m ++ v ++ skipn (Z.to_nat (idx + l)) m = m) /\
  (idx < 0 \/ Z.of_nat (length m) < idx + l -> extract_slice m idx l = Panic).
Proof.
  intros Hl. unfold extract_slice, isize_of_usize.
  destruct (Z.ltb_spec l (2 ^ 63)); [|lia].
  destruct (Z.leb_spec (2 ^ 63) l); [lia|].
  split.
  - intros Hi0 Hi1.
    destruct (Z.leb_spec 0 idx); [|lia].
    destruct (Z.leb_spec (idx + l) (Z.of_nat (length m))); [|lia].
    cbn [negb]. eexists. split; [reflexivity|]. split.
    + rewrite firstn_length_le; [lia|]. rewrite length_skipn. lia.
    + replace (Z.to_nat (idx + l)) with (Z.to_nat l + Z.to_nat idx)%nat by lia.
      apply window_split.
  - intros Hout.
    destruct (Z.leb_spec 0 idx); cbn [negb]; [|reflexivity].
    destruct (Z.leb_spec (idx + l) (Z.of_nat (length m))); cbn [negb]; [lia|reflexivity].
Qed.

Lemma extract_slice_window_witness :
  extract_slice [Byte.x01; Byte.x02; Byte.x03] 2 2 = Panic /\
  exists v, extract_slice [Byte.x01; Byte.x02; Byte.x03] 1 2 = Ok v /\
    Z.of_nat (length v) = 2.
Proof.
  split.
  - apply (extract_slice_window [Byte.x01; Byte.x02; Byte.x03] 2 2 ltac:(lia)).
    right. cbn. lia.
  - destruct (proj1 (extract_slice_window [Byte.x01; Byte.x02; Byte.x03] 1 2 ltac:(lia))
                ltac:(lia) ltac:(cbn; lia)) as (v & H & Hl & _).
    exists v. split; [exact H|exact Hl].
Defined.

(** Iterating an inline revlog to its end reads the index file as
    back-to-back records each followed by its payload, covering the whole
    file: the records and payloads concatenate to the index. *)
Theorem iter_inline_tiles rl n es :
  inline rl = true -> iter_collect n rl None = Ok es ->
  concat (map (fun e => chunk e ++ data e) es) = rl_index rl.
Proof.
  intros Hin H. destruct n as [|n]; [discriminate|].
  cbn [iter_collect iter_next] in H.
  destruct (index_entry_at_byte rl 0 None) as [e0| | |] eqn:He0;
    cbn [bind] in H; try discriminate.
  destruct (iter_collect n rl (Some e0)) as [es'| | |] eqn:Hr;
    cbn [bind] in H; try discriminate.
  apply ok_inj in H. subst es.
  pose proof (entry_tile rl 0 e0 Hin He0) as Ht. cbn [Z.to_nat skipn] in Ht.
  rewrite Ht, (iter_collect_inline rl n e0 es' Hin Hr).
  cbn [map concat]. symmetry. apply app_assoc.
Qed.

Lemma iter_inline_tiles_witness :
  exists es, iter_collect 5 (mkRevlog inline_idx None false [0; 67] false) None = Ok es /\
    concat (map (fun e => chunk e ++ data e) es) = inline_idx /\ length es = 2%nat.
Proof.
  destruct (iter_collect 5 (mkRevlog inline_idx None false [0; 67] false) None)
    as [es| | |] eqn:H; try (vm_compute in H; discriminate).
  exists es. split; [reflexivity|]. split.
  - exact (iter_inline_tiles (mkRevlog inline_idx None false [0; 67] false) 5 es eq_refl H).
  - vm_compute in H. apply ok_inj in H. subst es. reflexivity.
Defined.

End RevlogExtra.

(** * The reader of main.rs *)

Module MainRevlogFacts.
Import Revlog MainRevlog.
Open Scope Z_scope.

Lemma main_open_ok path fs rl :
  open path fs = Ok rl ->
  fs path = Some (index rl) /\ 64 < Z.of_nat (length (index rl)) /\
  inline rl =
    negb (Z.land (Z.shiftr (offset_flags (firstn 64 (index rl))) 32)
            REVLOGNGINLINEDATA =? 0).
Proof.
  intros H. unfold open in H.
  destruct (ends_with path ".i"); cbn [negb] in H; [|discriminate].
  destruct (map_file fs path) as [idx| | |] eqn:Hf; cbn [bind] in H; try discriminate.
  apply RevlogFacts.map_file_ok in Hf as [Hf _].
  unfold extract_value in H.
  destruct (Z.leb_spec 0 0); [|lia]. cbn [negb] in H.
  destruct (Z.ltb_spec (0 + 64) (Z.of_nat (length idx))) as [Hl|Hl];
    cbn [negb bind] in H; [|discriminate].
  change (firstn (Z.to_nat 64) (skipn (Z.to_nat 0) idx)) with (firstn 64 idx) in H.
  cbv zeta in H.
  destruct (Z.land (Z.shiftr (offset_flags (firstn 64 idx)) 32) REVLOGNG =? 0);
    [discriminate|].
  destruct (negb (Z.land (Z.shiftr (offset_flags (firstn 64 idx)) 32)
                    REVLOGNGINLINEDATA =? 0)) eqn:Hil.
  - cbn [bind] in H. unfold init in H. cbn [inline data Bool.eqb] in H.
    apply RevlogFacts.ok_inj in H. subst rl. cbn [index inline].
    split; [exact Hf|]. split; [lia|]. symmetry. exact Hil.
  - destruct (map_file fs (substring 0 (String.length path - 2) path ++ ".d")%string)
      as [d| | |]; cbn [bind] in H; try discriminate.
    unfold init in H. cbn [inline data Bool.eqb] in H.
    apply RevlogFacts.ok_inj in H. subst rl. cbn [index inline].
    split; [exact Hf|]. split; [lia|]. symmetry. exact Hil.
Qed.

Lemma entry_sep_panic fuel rl i :
  inline rl = false -> i < 0 \/ Z.of_nat (length (index rl)) <= 64 * i + 64 ->
  entry fuel rl i = Panic.
Proof.
  intros Hin Hi. unfold entry. rewrite Hin. unfold isize_mul, checked.
  destruct ((- 2 ^ 63 <=? i * 64) && (i * 64 <? 2 ^ 63)); cbn [bind]; [|reflexivity].
  unfold index_entry_at_byte. rewrite Hin.
  replace (Z.rem (i * 64) 64 =? 0) with true
    by (symmetry; apply Z.eqb_eq; apply Z.rem_mul; lia).
  cbn [negb andb].
  unfold extract_value.
  destruct (Z.leb_spec 0 (i * 64)); cbn [negb]; [|reflexivity].
  destruct (Z.ltb_spec (i * 64 + 64) (Z.of_nat (length (index rl)))); cbn [negb];
    [lia|reflexivity].
Qed.

Lemma entry_loop_nonneg f rl i : forall cur e0 e,
  0 <= cur -> i < 0 -> entry_loop f rl i cur e0 <> Ok e.
Proof.
  induction f as [|f IH]; intros cur e0 e Hc Hi; cbn [entry_loop]; [discriminate|].
  destruct (Z.eqb_spec cur i); [lia|].
  destruct (advance rl e0) as [[e1|]| | |]; cbn [bind]; try discriminate.
  unfold isize_add, checked.
  destruct ((- 2 ^ 63 <=? cur + 1) && (cur + 1 <? 2 ^ 63)); cbn [bind];
    [apply IH; lia|discriminate].
Qed.

Lemma dump_rows_spec f : forall data, (length data < f)%nat ->
  ((length data mod 16 = 0)%nat ->
     exists rows, dump_rows f data = Ok rows /\ concat rows = data /\
       Forall (fun r => length r = 16%nat) rows) /\
  ((length data mod 16 <> 0)%nat -> dump_rows f data = Panic).
Proof.
  induction f as [|f IH]; intros data Hf; [lia|].
  cbn [dump_rows].
  destruct (Nat.eqb_spec (length data) 0) as [E|E].
  - split.
    + intros _. exists []. split; [reflexivity|]. split; [|constructor].
      destruct data; [reflexivity|discriminate].
    + intros H. exfalso. apply H. rewrite E. reflexivity.
  - destruct (Nat.ltb_spec (length data) 16) as [L|L].
    + split; [|intros _; reflexivity].
      intros H. exfalso. rewrite Nat.mod_small in H by lia. lia.
    + assert (Hm : (length (skipn 16 data) mod 16 = length data mod 16)%nat).
      { rewrite length_skipn.
        replace (length data) with (length data - 16 + 1 * 16)%nat at 2 by lia.
        rewrite Nat.Div0.mod_add. reflexivity. }
      destruct (IH (skipn 16 data) ltac:(rewrite length_skipn; lia)) as [IH1 IH2].
      split.
      * intros H. destruct (IH1 ltac:(rewrite Hm; exact H)) as (rows & Hr & Hc & Hl).
        exists (firstn 16 data :: rows). rewrite Hr. cbn [bind].
        split; [reflexivity|]. split.
        -- cbn [concat]. rewrite Hc. apply firstn_skipn.
        -- constructor; [apply firstn_length_le; lia|exact Hl].
      * intros H. rewrite IH2 by (rewrite Hm; exact H). reflexivity.
Qed.

(** [entry] on a separate revlog: revision [i] is the record at byte
    [64 * i], and [extract_value]'s strict bound makes it readable only
    when [64 * i + 64] is below the index length; otherwise, and for a
    negative [i], [entry] panics. So the last record of the index can never
    be read. *)
Theorem main_entry_separate fuel rl :
  inline rl = false ->
  (forall i e, entry fuel rl i = Ok e ->
     0 <= i /\ 64 * i + 64 < Z.of_nat (length (index rl)) /\
     byte_offset e = as_i32 (64 * i) /\
     chunk e = firstn 64 (skipn (Z.to_nat (64 * i)) (index rl))) /\
  (forall i, i < 0 \/ Z.of_nat (length (index rl)) <= 64 * i + 64 ->
     entry fuel rl i = Panic).
Proof.
  intros Hin. split; [|intros i Hi; exact (entry_sep_panic fuel rl i Hin Hi)].
  intros i e. unfold entry. rewrite Hin. unfold isize_mul, checked.
  destruct ((- 2 ^ 63 <=? i * 64) && (i * 64 <? 2 ^ 63)); cbn [bind]; [|discriminate].
  unfold index_entry_at_byte. rewrite Hin. cbn [negb andb].
  destruct (Z.rem (i * 64) 64 =? 0); cbn [negb]; [|discriminate].
  unfold extract_value.
  destruct (Z.leb_spec 0 (i * 64)); cbn [negb]; [|discriminate].
  destruct (Z.ltb_spec (i * 64 + 64) (Z.of_nat (length (index rl))));
    cbn [negb bind]; [|discriminate].
  match goal with |- context [forallb ?f ?l] => destruct (forallb f l) end;
    cbn [negb]; [|discriminate].
  intros Hok. apply RevlogFacts.ok_inj in Hok. subst e. cbn [byte_offset chunk].
  rewrite (Z.mul_comm 64 i). split; [lia|]. split; [lia|]. split; reflexivity.
Qed.

Lemma main_entry_separate_witness :
  entry 10 (mk_revlog (sep_idx REVLOGNG 0 0) (Some sep_data) false false [0]) 1 = Panic.
Proof.
  destruct (main_entry_separate 10
              (mk_revlog (sep_idx REVLOGNG 0 0) (Some sep_data) false false [0]) eq_refl)
    as [_ H].
  apply H. right. vm_compute. discriminate.
Defined.

(** A negative revision is never found by [entry], so the special
    revision -1 does not exist here. *)
Theorem main_entry_negative fuel rl i :
  i < 0 -> forall e, entry fuel rl i <> Ok e.
Proof.
  intros Hi e. destruct (inline rl) eqn:Hin.
  - unfold entry. rewrite Hin.
    destruct (index_entry_at_byte rl 0) as [e0| | |]; cbn [bind]; try discriminate.
    apply entry_loop_nonneg; lia.
  - rewrite entry_sep_panic by first [exact Hin | lia]. discriminate.
Qed.

Lemma main_entry_negative_witness :
  entry 10 (mk_revlog inline_idx None true false [0]) (-1) <>
    Ok (mk_entry (firstn 64 inline_idx) 0).
Proof.
  exact (main_entry_negative 10 (mk_revlog inline_idx None true false [0]) (-1)
           ltac:(lia) (mk_entry (firstn 64 inline_idx) 0)).
Defined.

(** [open] panics on a nonempty index file of at most 64 bytes, even on
    exactly one record: [extract_value] asks for more bytes than the record.
    An empty index file is an error of the mapping instead. *)
Theorem main_open_small_panics path fs idx :
  ends_with path ".i" = true -> fs path = Some idx ->
  (0 < Z.of_nat (length idx) <= 64 -> open path fs = Panic) /\
  (idx = [] -> exists m, open path fs = Err m).
Proof.
  intros He Hf. split.
  2:{ intros ->. unfold open. rewrite He. cbn [negb]. unfold map_file. rewrite Hf.
      eexists. reflexivity. }
  intros Hl. unfold open. rewrite He. cbn [negb].
  rewrite (RevlogFacts.map_file_some fs path idx Hf)
    by (intros E; rewrite E in Hl; cbn in Hl; lia).
  cbn [bind]. unfold extract_value.
  destruct (Z.leb_spec 0 0); [|lia].
  destruct (Z.ltb_spec (0 + 64) (Z.of_nat (length idx))); [lia|].
  reflexivity.
Qed.

Lemma main_open_small_panics_witness :
  open "data/f.i" (fs_one "data/f.i" (firstn 64 (sep_idx REVLOGNG 0 0))) = Panic.
Proof.
  destruct (main_open_small_panics "data/f.i"
           (fs_one "data/f.i" (firstn 64 (sep_idx REVLOGNG 0 0)))
           (firstn 64 (sep_idx REVLOGNG 0 0)) eq_refl eq_refl) as [H _].
  apply H. vm_compute. split; [reflexivity|discriminate].
Defined.

(** [read_revlog] never succeeds on a separate revlog whose index has at
    most three records: revision 2 is out of [entry]'s reach. *)
Theorem main_read_revlog_small_separate fuel path fs idx :
  fs path = Some idx -> Z.of_nat (length idx) <= 192 ->
  Z.land (Z.shiftr (offset_flags (firstn 64 idx)) 32) REVLOGNGINLINEDATA = 0 ->
  read_revlog fuel path fs <> Ok tt.
Proof.
  intros Hf Hl Hil. unfold read_revlog.
  destruct (open path fs) as [rl| | |] eqn:Ho; cbn [bind]; try discriminate.
  apply main_open_ok in Ho as (Hf' & _ & Hin).
  rewrite Hf in Hf'. injection Hf' as Hidx.
  rewrite <- Hidx, Hil in Hin. cbn in Hin.
  destruct (entry fuel rl 0); cbn [bind]; try discriminate.
  destruct (entry fuel rl 1); cbn [bind]; try discriminate.
  rewrite (entry_sep_panic fuel rl 2 Hin) by (right; rewrite <- Hidx; lia).
  discriminate.
Qed.

Lemma main_read_revlog_small_separate_witness :
  read_revlog 10 "data/f.i" (fs_sep REVLOGNG 0 0) <> Ok tt.
Proof.
  exact (main_read_revlog_small_separate 10 "data/f.i" (fs_sep REVLOGNG 0 0)
           (sep_idx REVLOGNG 0 0) eq_refl ltac:(vm_compute; discriminate)
           ltac:(vm_compute; reflexivity)).
Defined.

(** [dump_revlog_hex] prints the data as consecutive 16-byte rows that
    concatenate back to it when its length is a multiple of 16, and panics
    (in [split_at]) otherwise. *)
Theorem dump_revlog_hex_rows data :
  ((length data mod 16 = 0)%nat ->
     exists rows, dump_revlog_hex data = Ok rows /\ concat rows = data /\
       Forall (fun r => length r = 16%nat) rows) /\
  ((length data mod 16 <> 0)%nat -> dump_revlog_hex data = Panic).
Proof. apply dump_rows_spec. lia. Qed.

Lemma dump_revlog_hex_rows_witness :
  dump_revlog_hex (repeat Byte.x01 33) = Panic /\
  exists rows, dump_revlog_hex (repeat Byte.x01 32) = Ok rows /\ length rows = 2%nat.
Proof.
  split.
  - apply (proj2 (dump_revlog_hex_rows (repeat Byte.x01 33))). cbn. discriminate.
  - destruct (proj1 (dump_revlog_hex_rows (repeat Byte.x01 32)) eq_refl) as (rows & H & _).
    exists rows. split; [exact H|].
    vm_compute in H. apply RevlogFacts.ok_inj in H. subst rows. reflexivity.
Defined.

(** [extract_value] of util.rs returns exactly [size] bytes for a value
    that fits in the mapping and panics otherwise; the copy in main.rs
    agrees with it except that it also panics on a value ending exactly
    at the end of the mapping. *)
Theorem extract_value_bounds m size idx :
  0 <= size ->
  (0 <= idx -> idx + size <= Z.of_nat (length m) ->
     exists v, Revlog.extract_value m size idx = Ok v /\ Z.of_nat (length v) = size) /\
  (idx < 0 \/ Z.of_nat (length m) < idx + size -> Revlog.extract_value m size idx = Panic) /\
  MainRevlog.extract_value m size idx =
    if idx + size =? Z.of_nat (length m) then Panic else Revlog.extract_value m size idx.
Proof.
  intros Hs. unfold Revlog.extract_value, MainRevlog.extract_value.
  split; [|split].
  - intros Hi0 Hi1.
    destruct (Z.leb_spec 0 idx); [|lia].
    destruct (Z.leb_spec (idx + size) (Z.of_nat (length m))); [|lia].
    cbn [negb]. eexists. split; [reflexivity|].
    rewrite firstn_length_le; [lia|]. rewrite length_skipn. lia.
  - intros Hout.
    destruct (Z.leb_spec 0 idx); cbn [negb]; [|reflexivity].
    destruct (Z.leb_spec (idx + size) (Z.of_nat (length m))); cbn [negb]; [lia|reflexivity].
  - destruct (Z.eqb_spec (idx + size) (Z.of_nat (length m)));
      destruct (Z.leb_spec 0 idx); cbn [negb]; try reflexivity;
      destruct (Z.ltb_spec (idx + size) (Z.of_nat (length m)));
      destruct (Z.leb_spec (idx + size) (Z.of_nat (length m))); cbn [negb];
      first [reflexivity | exfalso; lia].
Qed.

Lemma extract_value_bounds_witness :
  MainRevlog.extract_value (repeat Byte.x00 64) 64 0 = Panic /\
  exists v, Revlog.extract_value (repeat Byte.x00 64) 64 0 = Ok v /\
    Z.of_nat (length v) = 64.
Proof.
  destruct (extract_value_bounds (repeat Byte.x00 64) 64 0 ltac:(lia)) as (H1 & _ & H3).
  split.
  - rewrite H3. reflexivity.
  - apply H1; [lia|cbn; lia].
Defined.

End MainRevlogFacts.
